(** * pRT_make_spec.py: the order-by-order template driver

    A shallow embedding of the command-line driver [pRT_make_spec.py].
    The script parses its arguments, builds an isothermal atmosphere
    profile, enumerates the spectral orders, calls petitRADTRANS once per
    order and pickles a (wavelength, flux decrement) pair per order.

    What is modelled and how:
    - Python floats and float64 arrays are IEEE binary64 numbers
      ([PrimFloat.float]) and lists of them; a Python complex and a
      complex128 array are pairs of them;
    - Python ints are [Z], with [Z.lxor] for the operator [^]; turning one
      into a float raises OverflowError beyond the range of the doubles;
    - an array is modelled by its element values (that numpy falls back to
      an object array for an int beyond 64 bits is not);
    - the wavelength file, when it can be read, is taken to unpickle to a
      list of float64 arrays, one per order;
    - everything outside the script (petitRADTRANS, its constants, libm's
      [pow], [np.logspace], the file system and pickle) is a field of a
      [Platform]; a call to it takes the state of the world and returns the
      next one together with a result or an exception;
    - the script itself runs in a state-and-exception monad whose state is
      the world plus a log of the external calls made so far.

    Printing to the terminal and the wall-clock timer are left out: the
    script never reads them back. *)

From Stdlib Require Import ZArith List Floats.
From stdpp Require Import base strings gmap pretty.

Set Warnings "-inexact-float".
Open Scope float_scope.

(** ** Numbers and arrays *)

(** A float64 array. *)
Abbreviation ndarray := (list float).

(** A value that is a Python float in single-model mode and a float64
    array in order-by-order mode (the script uses [W_min] and [W_max] at
    both types). *)
Inductive pynum : Type :=
| PyFloat (x : float)
| NdArray (xs : ndarray).

(** The double nearest to an integer (ties to even; infinite beyond the
    range of the doubles). Python's conversion of an int to a float is
    [py_float] below, which raises where this is infinite. *)
Definition float_of_Z (z : Z) : float :=
  SF2Prim (binary_normalize prec emax z 0 false).

(** [np.ones_like(a)] *)
Definition ones_like (a : ndarray) : ndarray := map (fun _ => 1) a.

(** [k * a] for a scalar [k] and an array [a] *)
Definition scale (k : float) (a : ndarray) : ndarray := map (fun x => k * x) a.

(** [k * v], scalar on the left *)
Definition pynum_lmul (k : float) (v : pynum) : pynum :=
  match v with
  | PyFloat x => PyFloat (k * x)
  | NdArray xs => NdArray (map (fun x => k * x) xs)
  end.

(** [v * k], scalar on the right *)
Definition pynum_rmul (v : pynum) (k : float) : pynum :=
  match v with
  | PyFloat x => PyFloat (x * k)
  | NdArray xs => NdArray (map (fun x => x * k) xs)
  end.

(** [(v + w) / 2]; numpy refuses arrays of different lengths, which never
    meet here, and a float never meets an array. *)
Definition pynum_mean (v w : pynum) : pynum :=
  match v, w with
  | PyFloat x, PyFloat y => PyFloat ((x + y) / 2)
  | NdArray xs, NdArray ys => NdArray (zip_with (fun x y => (x + y) / 2) xs ys)
  | PyFloat x, NdArray ys => NdArray (map (fun y => (x + y) / 2) ys)
  | NdArray xs, PyFloat y => NdArray (map (fun x => (x + y) / 2) xs)
  end.

(** ['sep'.join(l)] *)
Fixpoint str_join (sep : string) (l : list string) : string :=
  match l with
  | [] => ""
  | [s] => s
  | s :: rest => s +:+ sep +:+ str_join sep rest
  end.

(** ** Exceptions *)

Inductive exn : Type :=
| TypeError
| IndexError
| OverflowError
| External (what : string).   (* raised by a library or the operating system *)

Abbreviation result A := (exn + A)%type.

(** ** Python numbers *)

(** [float(z)] for a Python int [z], as Python converts an int operand
    that meets a float or a complex: OverflowError ("int too large to
    convert to float") when the nearest double is infinite. *)
Definition py_float (z : Z) : result float :=
  if is_infinity (float_of_Z z) then inl OverflowError else inr (float_of_Z z).

(** A Python float or complex. *)
Inductive pyscalar : Type :=
| PyReal (x : float)
| PyComplex (re im : float).

(** The product of two complex numbers, as CPython and numpy compute it. *)
Definition complex_mul (a b : float * float) : float * float :=
  (a.1 * b.1 - a.2 * b.2, a.1 * b.2 + a.2 * b.1).

(** A float64 or a complex128 array. *)
Inductive profile_array : Type :=
| Float64 (a : ndarray)
| Complex128 (a : list (float * float)).

Definition profile_length (a : profile_array) : nat :=
  match a with
  | Float64 a => length a
  | Complex128 a => length a
  end.

(** [t * p] for a Python int already converted to the float [t] and a
    float or complex [p]. *)
Definition py_mul (t : float) (p : pyscalar) : pyscalar :=
  match p with
  | PyReal x => PyReal (t * x)
  | PyComplex re im =>
      let c := complex_mul (t, 0) (re, im) in PyComplex c.1 c.2
  end.

(** [p * a] for a Python float or complex [p] and a float64 array [a]:
    a float64 array, or a complex128 array when [p] is complex. *)
Definition py_mul_array (p : pyscalar) (a : ndarray) : profile_array :=
  match p with
  | PyReal x => Float64 (scale x a)
  | PyComplex re im => Complex128 (map (fun y => complex_mul (re, im) (y, 0)) a)
  end.

(** [k * np.ones_like(a)] for a Python float [k]: the array of ones has
    the type of [a]. *)
Definition times_ones_like (k : float) (a : profile_array) : profile_array :=
  match a with
  | Float64 a => Float64 (scale k (ones_like a))
  | Complex128 a =>
      Complex128 (map (fun one => complex_mul (k, 0) one) (map (fun _ => (1, 0)) a))
  end.

(** ** Command line *)

(** The flags as typed; [None] is an omitted optional flag. *)
Record CommandLine : Type := {
  cl_planet : string;
  cl_Rp : float;
  cl_Rs : float;
  cl_grav : float;
  cl_Teq : Z;
  cl_Teff : option Z;
  cl_Tint : option Z;
  cl_mmw : float;
  cl_wmin : option float;
  cl_wmax : option float;
  cl_wlens_file : option string;
  cl_species : option (list string)
}.

(** The namespace [args] returned by [parser.parse_args()]. *)
Record Namespace : Type := {
  arg_planet : string;
  arg_Rp : float;
  arg_Rs : float;
  arg_grav : float;
  arg_Teq : Z;
  arg_Teff : option Z;
  arg_Tint : option Z;
  arg_mmw : float;
  arg_wmin : float;
  arg_wmax : float;
  arg_wlens_file : option string;
  arg_species : list string
}.

Definition parse_args (cl : CommandLine) : Namespace := {|
  arg_planet := cl_planet cl;
  arg_Rp := cl_Rp cl;
  arg_Rs := cl_Rs cl;
  arg_grav := cl_grav cl;
  arg_Teq := cl_Teq cl;
  arg_Teff := cl_Teff cl;
  arg_Tint := cl_Tint cl;
  arg_mmw := cl_mmw cl;
  arg_wmin := default 1.2 (cl_wmin cl);
  arg_wmax := default 2.5 (cl_wmax cl);
  arg_wlens_file := cl_wlens_file cl;
  arg_species := default ["H2"] (cl_species cl)
|}.

(** ** The interface to petitRADTRANS *)

(** Everything one pass through [compute_model] hands to the engine: the
    keyword arguments of [Radtrans(...)], the argument of
    [setup_opa_structure] and the arguments of [calc_transm]. *)
Record RadtransCall : Type := {
  line_species : list string;
  rayleigh_species : list string;
  continuum_opacities : list string;
  wlen_bords_micron : pynum * pynum;
  mode : string;
  lbl_opacity_sampling : Z;
  rc_pressures : ndarray;
  rc_temperature : profile_array;
  rc_abundances : gmap string ndarray;
  rc_gravity : float;
  rc_MMW : profile_array;
  R_pl : float;
  P0_bar : float
}.

(** What the script reads back from the engine object. *)
Record RadtransOut : Type := {
  transm_rad : ndarray;
  freq : ndarray
}.

(** ** The log of external calls *)

Inductive event : Type :=
| EvMakedirs (path : string) (r : result unit)
| EvLoad (path : string) (r : result (list ndarray))
| EvRadtrans (call : RadtransCall) (r : result RadtransOut)
| EvDump (path : string) (obj : list ndarray) (r : result unit).

(** The exception an external call ended with, if it did. *)
Definition event_raised (ev : event) : option exn :=
  match ev with
  | EvMakedirs _ (inl e) | EvLoad _ (inl e)
  | EvRadtrans _ (inl e) | EvDump _ _ (inl e) => Some e
  | _ => None
  end.

Definition engine_call (ev : event) : option RadtransCall :=
  match ev with EvRadtrans c _ => Some c | _ => None end.

Definition engine_output (ev : event) : option RadtransOut :=
  match ev with EvRadtrans _ (inr o) => Some o | _ => None end.

Definition written_file (ev : event) : option (string * list ndarray) :=
  match ev with EvDump p obj (inr _) => Some (p, obj) | _ => None end.

(** The engine invocations of a log, the outputs the engine returned and
    the files that were written, each in order. *)
Definition engine_calls (tr : list event) : list RadtransCall :=
  omap engine_call tr.
Definition engine_outputs (tr : list event) : list RadtransOut :=
  omap engine_output tr.
Definition written_files (tr : list event) : list (string * list ndarray) :=
  omap written_file tr.

(** ** The platform *)

Record Platform : Type := {
  World : Type;
  (* petitRADTRANS.nat_cst *)
  nc_c : float;
  nc_r_sun : float;
  nc_r_jup_mean : float;
  (* Python's [n ** y] for an int [n] and a float [y]: a float, a complex
     (negative [n], fractional [y]) or OverflowError; Python's [x ** n] for
     a float [x] and an int [n]: a float or OverflowError; numpy's [a ** n]
     on an element of a float64 array, which does not raise *)
  pow_int_float : Z -> float -> result pyscalar;
  pow_float_int : float -> Z -> result float;
  ndarray_pow : float -> Z -> float;
  (* np.logspace(-10, 2, 100) *)
  logspace_m10_2_100 : ndarray;
  (* os.path.exists, os.makedirs *)
  path_exists : World -> string -> bool;
  makedirs : World -> string -> World * result unit;
  (* pickle.load(open(path, 'rb')), pickle.dump(obj, open(path, 'wb'), protocol=2) *)
  pickle_load : World -> string -> World * result (list ndarray);
  pickle_dump : World -> string -> list ndarray -> World * result unit;
  (* Radtrans(...), setup_opa_structure, calc_transm, then transm_rad and freq *)
  radtrans : World -> RadtransCall -> World * result RadtransOut
}.

(** ** The script *)

Section Script.

Context (P : Platform).

(** *** The monad: world and log, with exceptions *)

Record State : Type := { world : World P; trace : list event }.

Definition M (A : Type) : Type := State -> State * result A.

Definition ret {A} (x : A) : M A := fun s => (s, inr x).

Definition bind {A B} (m : M A) (k : A -> M B) : M B :=
  fun s =>
    match m s with
    | (s', inr x) => k x s'
    | (s', inl e) => (s', inl e)
    end.

Definition lift {A} (r : result A) : M A := fun s => (s, r).

(** An external call: run it on the world and append it to the log. *)
Definition external {A} (f : World P -> World P * result A)
    (ev : result A -> event) : M A :=
  fun s =>
    let '(w, r) := f (world s) in
    ({| world := w; trace := trace s ++ [ev r] |}, r).

Notation "x <- m ;; k" := (bind m (fun x => k))
  (at level 100, m at next level, right associativity).
Notation "m ;;; k" := (bind m (fun _ => k))
  (at level 100, right associativity).

(** [if not os.path.exists(d): os.makedirs(d)] *)
Definition ensure_dir (d : string) : M unit :=
  fun s =>
    if path_exists P (world s) d then (s, inr tt)
    else external (fun w => makedirs P w d) (EvMakedirs d) s.

(** *** Atmosphere profile *)

Definition wfactor : float := 0.01.
Definition P0 : float := 0.01.
Definition solar : string := "1x".

Definition pressures : ndarray := logspace_m10_2_100 P.

(** [Tint^4+Teq^4]: in Python [+] binds tighter than [^], and [^] is the
    bitwise exclusive or, associating to the left. *)
Definition radicand (Tint Teq : Z) : Z := Z.lxor (Z.lxor Tint (4 + Teq)) 4.

(** [Teff * X ** 0.25] for the ints [Teff] and [X]: the power first, then
    the conversion of [Teff] to a float; either can raise OverflowError,
    and the result is complex when [X] is negative. *)
Definition scalar_temperature (Teff X : Z) : result pyscalar :=
  match pow_int_float P X 0.25 with
  | inl e => inl e
  | inr p =>
      match py_float Teff with
      | inl e => inl e
      | inr t => inr (py_mul t p)
      end
  end.

(** The [temperature] array. With [--Teff] but without [--Tint] the
    operator [^] meets [None] and raises TypeError. *)
Definition temperature (Teff Tint : option Z) (Teq : Z) : result profile_array :=
  match Teff with
  | Some teff =>
      match Tint with
      | Some tint =>
          match scalar_temperature teff (radicand tint Teq) with
          | inl e => inl e
          | inr p => inr (py_mul_array p (ones_like pressures))
          end
      | None => inl TypeError
      end
  | None =>
      match py_float Teq with
      | inl e => inl e
      | inr t => inr (Float64 (scale t (ones_like pressures)))
      end
  end.

(** The line list [LS] selected by [--species]. *)
Definition LS (species : list string) : list string :=
  let LS := [] in
  let LS := if decide ("CO" ∈ species) then LS ++ ["CO_all_iso"] else LS in
  let LS := if decide ("H2O" ∈ species) then LS ++ ["H2O_main_iso"] else LS in
  let LS := if decide ("CO2" ∈ species) then LS ++ ["CO2_main_iso"] else LS in
  let LS := if decide ("CH4" ∈ species) then LS ++ ["CH4_main_iso"] else LS in
  let LS := if decide ("HCN" ∈ species) then LS ++ ["HCN_main_iso"] else LS in
  let LS := if decide ("NH3" ∈ species) then LS ++ ["NH3_main_iso"] else LS in
  let LS := if decide ("H2" ∈ species) then LS ++ ["H2_main_iso"] else LS in
  LS.

(** Mass fractions, set to solar. *)
Definition abundances : gmap string ndarray :=
  let abundances := ∅ in
  let abundances := <["H2" := scale 0.71 (ones_like pressures)]> abundances in
  let abundances := <["He" := scale 0.27 (ones_like pressures)]> abundances in
  let abundances := <["H2O_main_iso" := scale 1e-3 (ones_like pressures)]> abundances in
  let abundances := <["CO_all_iso" := scale 1e-3 (ones_like pressures)]> abundances in
  let abundances := <["NH3" := scale 2.2e-5 (ones_like pressures)]> abundances in
  let abundances := <["CO2_main_iso" := scale 1e-4 (ones_like pressures)]> abundances in
  let abundances := <["CH4_main_iso" := scale 1e-3 (ones_like pressures)]> abundances in
  let abundances := <["HCN_main_iso" := scale 1.1e-4 (ones_like pressures)]> abundances in
  abundances.

(** The module-level variables [compute_model] reads. *)
Record Globals : Type := {
  g_LS : list string;
  g_pressures : ndarray;
  g_temperature : profile_array;
  g_abundances : gmap string ndarray;
  g_gravity : float;
  g_MMW : profile_array;
  g_Rp : float;
  g_P0 : float
}.

(** *** compute_model *)

Definition radtrans_call (g : Globals) (lamb_inf lamb_sup : pynum) : RadtransCall := {|
  line_species := g_LS g;
  rayleigh_species := ["H2"; "He"];
  continuum_opacities := ["H2-H2"; "H2-He"];
  wlen_bords_micron := (lamb_inf, lamb_sup);
  mode := "lbl";
  lbl_opacity_sampling := 10;
  rc_pressures := g_pressures g;
  rc_temperature := g_temperature g;
  rc_abundances := g_abundances g;
  rc_gravity := g_gravity g;
  rc_MMW := g_MMW g;
  R_pl := g_Rp g;
  P0_bar := g_P0 g
|}.

(** [wlens = nc.c/atmosphere.freq; wlens /= 1e-4] *)
Definition wlens_of (fr : ndarray) : ndarray :=
  map (fun w => w / 1e-4) (map (fun f => nc_c P / f) fr).

Definition compute_model (g : Globals) (wmin wmax : pynum) (wfactor : float)
    : M (ndarray * ndarray) :=
  let lamb_inf := pynum_lmul (1 - wfactor) wmin in
  let lamb_sup := pynum_rmul wmax (1 + wfactor) in
  let call := radtrans_call g lamb_inf lamb_sup in
  atmosphere <- external (fun w => radtrans P w call) (EvRadtrans call) ;;
  let Rtransit := transm_rad atmosphere in
  let wlens := wlens_of (freq atmosphere) in
  ret (Rtransit, wlens).

(** *** Order enumeration *)

Record Orders : Type := {
  order_by_order : bool;
  ndet : nat;
  W_min : pynum;
  W_max : pynum;
  Wm : pynum;
  det : list Z
}.

(** The loop filling [W_min] and [W_max] from the unpickled list:
    [A[idet][0]] and [A[idet][-1]] raise IndexError on an empty entry. *)
Fixpoint window_loop (A : list ndarray) (idets : list nat)
    (W_min W_max : ndarray) : result (ndarray * ndarray) :=
  match idets with
  | [] => inr (W_min, W_max)
  | idet :: idets =>
      match A !! idet with
      | None => inl IndexError
      | Some a =>
          match head a, last a with
          | Some lo, Some hi => window_loop A idets (W_min ++ [lo]) (W_max ++ [hi])
          | _, _ => inl IndexError
          end
      end
  end.

Definition enumerate_orders (args : Namespace) : M Orders :=
  match arg_wlens_file args with
  | Some rep_wave =>
      A <- external (fun w => pickle_load P w rep_wave) (EvLoad rep_wave) ;;
      let ndet := length A in
      W <- lift (window_loop A (seq 0 ndet) [] []) ;;
      let W_min := map (fun x => x / 1e3) (fst W) in
      let W_max := map (fun x => x / 1e3) (snd W) in
      ret {| order_by_order := true;
             ndet := ndet;
             W_min := NdArray W_min;
             W_max := NdArray W_max;
             Wm := pynum_mean (NdArray W_min) (NdArray W_max);
             det := map Z.of_nat (seq 0 ndet) |}
  | None =>
      ret {| order_by_order := false;
             ndet := 1;
             W_min := PyFloat (arg_wmin args);
             W_max := PyFloat (arg_wmax args);
             Wm := pynum_mean (PyFloat (arg_wmin args)) (PyFloat (arg_wmax args));
             det := [1%Z] |}
  end.

(** *** Main loop *)

(** [DF = -1.0* Rtransit**(2)/Rs**(2)]: [Rs**(2)] is a power of Python
    floats and raises OverflowError when the square overflows. *)
Definition DF_of (Rs : float) (Rtransit : ndarray) : result ndarray :=
  match pow_float_int P Rs 2 with
  | inl e => inl e
  | inr Rs2 => inr (map (fun r => (-1.0 * ndarray_pow P r 2) / Rs2) Rtransit)
  end.

Definition rep_fin_of (save_dir : string) (d : Z) : string :=
  save_dir +:+ "template_det" +:+ pretty d +:+ ".pic".

Fixpoint order_loop (g : Globals) (o : Orders) (Rs : float) (save_dir : string)
    (idets : list nat) : M unit :=
  match idets with
  | [] => ret tt
  | idet :: idets =>
      d <- lift (from_option inr (inl IndexError) (det o !! idet)) ;;
      model <- compute_model g (W_min o) (W_max o) wfactor ;;
      let '(Rtransit, wlens) := model in
      DF <- lift (DF_of Rs Rtransit) ;;
      let rep_fin := rep_fin_of save_dir d in
      external (fun w => pickle_dump P w rep_fin [wlens; DF])
               (EvDump rep_fin [wlens; DF]) ;;;
      order_loop g o Rs save_dir idets
  end.

(** What the script has set up when it reaches the main loop. *)
Record Setup : Type := {
  globals : Globals;
  orders : Orders;
  Rs : float;
  save_dir : string
}.

(** Everything from [parse_args] down to the second [os.makedirs]. *)
Definition setup (args : Namespace) : M Setup :=
  let save_dir := "pRT_models/" in
  ensure_dir save_dir ;;;
  let Rp := arg_Rp args * nc_r_jup_mean P in
  let Rs := arg_Rs args * nc_r_sun P in
  let gravity := arg_grav args in
  let Teq := arg_Teq args in
  let mmw := arg_mmw args in
  let Teff := arg_Teff args in
  let Tint := arg_Tint args in
  temperature <- lift (temperature Teff Tint Teq) ;;
  let MMW := times_ones_like mmw temperature in
  let species := arg_species args in
  let g := {| g_LS := LS species;
              g_pressures := pressures;
              g_temperature := temperature;
              g_abundances := abundances;
              g_gravity := gravity;
              g_MMW := MMW;
              g_Rp := Rp;
              g_P0 := P0 |} in
  o <- enumerate_orders args ;;
  let sp := str_join "_" species in
  let save_dir :=
    save_dir +:+ arg_planet args +:+ "_" +:+ solar +:+ "Solar_" +:+ sp +:+ "_R1M/" in
  let save_dir :=
    if order_by_order o then save_dir +:+ "order_by_order/" else save_dir in
  ensure_dir save_dir ;;;
  ret {| globals := g; orders := o; Rs := Rs; save_dir := save_dir |}.

Definition main (args : Namespace) : M unit :=
  su <- setup args ;;
  order_loop (globals su) (orders su) (Rs su) (save_dir su) (seq 0 (ndet (orders su))).

(** A run of the script from a world in which nothing has been logged. *)
Definition run (args : Namespace) (w : World P) : State * result unit :=
  main args {| world := w; trace := [] |}.

End Script.

Arguments world {P} _.
Arguments trace {P} _.
Arguments ret {P A} _ _.
Arguments bind {P A B} _ _ _.
Arguments lift {P A} _ _.
Arguments external {P A} _ _ _.

(** ** What the specification says, for comparison *)

(** The flux decrement as the squared radius ratio [(Rtransit/Rs)^2]. *)
Definition squared_radius_ratio (P : Platform) (Rs : float) (Rtransit : ndarray)
    : ndarray :=
  map (fun r => ndarray_pow P (r / Rs) 2) Rtransit.

(** The temperature entry read as
    [Teff * ((Tint XOR 4) + (Teq XOR 4)) ** 0.25]. *)
Definition xor_sum_temperature (P : Platform) (Teff Tint Teq : Z) : result pyscalar :=
  scalar_temperature P Teff (Z.lxor Tint 4 + Z.lxor Teq 4).

(** ** A platform to run the script on *)

Module Sim.

(** The world counts the engine invocations made so far. The wavelength
    file holds [A]; the engine returns [out] on every call except the one
    numbered [fails_at], where it raises; directories do not exist yet and
    can be created; files can be written. Powers are computed for the two
    exponents the script uses: [x ** 2] as a product, with OverflowError
    when a finite [x] has an infinite square, and [n ** 0.25] as two
    square roots, on the complex diagonal for a negative [n]. The
    constants are petitRADTRANS's in cgs units. The pressure grid is cut
    down to three points. *)
Definition platform (A : list ndarray) (out : RadtransOut)
    (fails_at : option nat) : Platform := {|
  World := nat;
  nc_c := 2.99792458e10;
  nc_r_sun := 6.955e10;
  nc_r_jup_mean := 6.9911e9;
  pow_int_float := fun n y =>
    match py_float n with
    | inl e => inl e
    | inr x =>
        if (y =? 0.25)%float then
          if (x <? 0)%float then
            let r := sqrt (sqrt (- x)) * 0.7071067811865476 in
            inr (PyComplex r r)
          else inr (PyReal (sqrt (sqrt x)))
        else inr (PyReal nan)
    end;
  pow_float_int := fun x n =>
    if (n =? 2)%Z then
      if is_infinity (x * x) && negb (is_infinity x) then inl OverflowError
      else inr (x * x)
    else inr nan;
  ndarray_pow := fun x n => if (n =? 2)%Z then x * x else nan;
  logspace_m10_2_100 := [1e-10; 1e-4; 1e2];
  path_exists := fun _ _ => false;
  makedirs := fun w _ => (w, inr tt);
  pickle_load := fun w _ => (w, inr A);
  pickle_dump := fun w _ _ => (w, inr tt);
  radtrans := fun w _ =>
    (S w, if decide (fails_at = Some w) then inl (External "petitRADTRANS")
          else inr out)
|}.

(** One engine output: two wavelength points around 2 microns. *)
Definition out : RadtransOut :=
  {| transm_rad := [7.0e9; 7.1e9]; freq := [1.5e14; 1.4e14] |}.

(** A wavelength file with two orders, in nanometres. *)
Definition two_orders : list ndarray :=
  [[1000; 1050; 1100]; [2000; 2100; 2200]].

Definition command_line (file : option string) (Teff Tint : option Z)
    (species : list string) : CommandLine := {|
  cl_planet := "WASP-77Ab";
  cl_Rp := 1.21;
  cl_Rs := 0.955;
  cl_grav := 1348;
  cl_Teq := 1500;
  cl_Teff := Teff;
  cl_Tint := Tint;
  cl_mmw := 2.33;
  cl_wmin := None;
  cl_wmax := None;
  cl_wlens_file := file;
  cl_species := Some species
|}.

End Sim.

(** * Vocabulary of the properties *)

(** A mantissa [m] shifted left by [n] bits. *)
Fixpoint shl (n : nat) (m : positive) : positive :=
  match n with
  | O => m
  | S n => ((shl n m)~0)%positive
  end.

(** ** The shape of logs *)

(** No external call of the log raised. *)
Definition quiet (tr : list event) : Prop :=
  Forall (fun ev => event_raised ev = None) tr.

(** A log and a result in which an external exception, if there is one,
    is the last entry of the log and the result of the computation. *)
Inductive fail_fast {A} : list event -> result A -> Prop :=
| ff_quiet tr r :
    quiet tr -> fail_fast tr r
| ff_raised tr ev e :
    quiet tr -> event_raised ev = Some e -> fail_fast (tr ++ [ev]) (inl e).

(** The entries [setup] can log. *)
Definition is_setup_event (ev : event) : Prop :=
  match ev with
  | EvMakedirs _ _ | EvLoad _ _ => True
  | _ => False
  end.

(** The engine call every pass of the main loop makes. *)
Definition order_call (g : Globals) (o : Orders) : RadtransCall :=
  radtrans_call g (pynum_lmul (1 - wfactor) (W_min o))
                  (pynum_rmul (W_max o) (1 + wfactor)).

(** The file the main loop writes for the order numbered [d] from the
    engine output [out]. *)
Definition order_file (P : Platform) (Rs : float) (save_dir : string) (d : Z)
    (out : RadtransOut) : result (string * list ndarray) :=
  match DF_of P Rs (transm_rad out) with
  | inl e => inl e
  | inr DF => inr (rep_fin_of save_dir d, [wlens_of P (freq out); DF])
  end.

(** The object handed to [pickle.dump], written or not. *)
Definition dump_object (ev : event) : option (list ndarray) :=
  match ev with EvDump _ obj _ => Some obj | _ => None end.

(** The logs and results the main loop can produce over the order indices
    [idets]. *)
Inductive loop_log (P : Platform) (g : Globals) (o : Orders) (Rs : float)
    (save_dir : string) : list nat -> list event -> result unit -> Prop :=
| loop_done :
    loop_log P g o Rs save_dir [] [] (inr tt)
| loop_no_det idet idets :
    det o !! idet = None ->
    loop_log P g o Rs save_dir (idet :: idets) [] (inl IndexError)
| loop_engine_raises idet idets d e :
    det o !! idet = Some d ->
    loop_log P g o Rs save_dir (idet :: idets)
      [EvRadtrans (order_call g o) (inl e)] (inl e)
| loop_DF_raises idet idets d out e :
    det o !! idet = Some d ->
    order_file P Rs save_dir d out = inl e ->
    loop_log P g o Rs save_dir (idet :: idets)
      [EvRadtrans (order_call g o) (inr out)] (inl e)
| loop_dump_raises idet idets d out file e :
    det o !! idet = Some d ->
    order_file P Rs save_dir d out = inr file ->
    loop_log P g o Rs save_dir (idet :: idets)
      [EvRadtrans (order_call g o) (inr out); EvDump file.1 file.2 (inl e)]
      (inl e)
| loop_next idet idets d out file tr r :
    det o !! idet = Some d ->
    order_file P Rs save_dir d out = inr file ->
    loop_log P g o Rs save_dir idets tr r ->
    loop_log P g o Rs save_dir (idet :: idets)
      (EvRadtrans (order_call g o) (inr out) :: EvDump file.1 file.2 (inr tt) :: tr)
      r.

Section Vocabulary.

Context (P : Platform).

(** [m] extends the log by some [tr] and returns some [r] with [Q tr r]. *)
Definition logs {A} (m : M P A) (Q : list event -> result A -> Prop) : Prop :=
  forall s s' r, m s = (s', r) ->
    exists tr, trace s' = trace s ++ tr /\ Q tr r.

(** The profile [setup] builds from [args] with the temperature array [T]. *)
Definition profile (args : Namespace) (T : profile_array) : Globals := {|
  g_LS := LS (arg_species args);
  g_pressures := pressures P;
  g_temperature := T;
  g_abundances := abundances P;
  g_gravity := arg_grav args;
  g_MMW := times_ones_like (arg_mmw args) T;
  g_Rp := arg_Rp args * nc_r_jup_mean P;
  g_P0 := P0
|}.

(** A run is [setup] followed, if it returns, by the main loop over
    [range(ndet)]; the engine and [pickle.dump] are called by the loop
    only. *)
Inductive run_log (args : Namespace) (w : World P)
    : list event -> result unit -> Prop :=
| run_setup_raises s1 e :
    setup P args {| world := w; trace := [] |} = (s1, inl e) ->
    run_log args w (trace s1) (inl e)
| run_loops s1 su tr r :
    setup P args {| world := w; trace := [] |} = (s1, inr su) ->
    loop_log P (globals su) (orders su) (Rs su) (save_dir su)
             (seq 0 (ndet (orders su))) tr r ->
    run_log args w (trace s1 ++ tr) r.

End Vocabulary.

(** * Properties *)

(** ** Two facts of binary64 arithmetic *)

Section FloatFacts.

Lemma float_mul_comm (x y : float) : x * y = y * x.
Proof.
  apply Prim2SF_inj. rewrite !mul_spec. unfold SF64mul.
  destruct (Prim2SF x) as [s|s| |s m e], (Prim2SF y) as [s'|s'| |s' m' e'];
    cbn [SFmul]; rewrite ?(xorb_comm s s'); try reflexivity.
  now rewrite (Pos.mul_comm m m'), (Z.add_comm e e').
Qed.

Lemma shr_shl (n : nat) (m : positive) :
  Nat.iter n shr_1 {| shr_m := Zpos (shl n m); shr_r := false; shr_s := false |}
  = {| shr_m := Zpos m; shr_r := false; shr_s := false |}.
Proof.
  induction n as [|n IH]; [reflexivity|].
  rewrite Nat.iter_succ_r. exact IH.
Qed.

Lemma digits_shl (n : nat) (m : positive) :
  Zpos (digits2_pos (shl n m)) = (Zpos (digits2_pos m) + Z.of_nat n)%Z.
Proof.
  induction n as [|n IH]; cbn [shl digits2_pos]; [lia|].
  rewrite Pos2Z.inj_succ, IH. lia.
Qed.

Lemma iter_pos_nat {A} (f : A -> A) (p : positive) (x : A) :
  SpecFloat.iter_pos f p x = Nat.iter (Pos.to_nat p) f x.
Proof.
  revert x. induction p as [p IH|p IH|]; intros x; cbn [SpecFloat.iter_pos].
  - rewrite !IH, <- Nat.iter_succ_r, <- Nat.iter_add. f_equal. lia.
  - rewrite !IH, <- Nat.iter_add. f_equal. lia.
  - reflexivity.
Qed.

(** Multiplying by the unit entry of [np.ones_like] changes nothing. *)
Lemma float_mul_1_r (x : float) : x * 1 = x.
Proof.
  apply Prim2SF_inj. rewrite mul_spec.
  pose proof (Prim2SF_valid x) as V.
  change (Prim2SF 1) with (S754_finite false 4503599627370496 (-52)).
  destruct (Prim2SF x) as [s|s| |s m e]; unfold SF64mul, SFmul;
    rewrite ?xorb_false_r; try reflexivity.
  unfold valid_binary, bounded, canonical_mantissa in V.
  apply andb_prop in V as [C B]. apply Z.eqb_eq in C.
  replace (m * 4503599627370496)%positive with (shl 52 m)
    by (rewrite Pos.mul_comm; reflexivity).
  unfold binary_round_aux, shr_fexp, Zdigits2.
  rewrite digits_shl.
  replace (Z.pos (digits2_pos m) + Z.of_nat 52 + (e + -52))%Z
    with (Z.pos (digits2_pos m) + e)%Z by lia.
  rewrite C.
  replace (e - (e + -52))%Z with (Z.pos 52) by lia.
  assert (S1 : shr (shr_record_of_loc (Z.pos (shl 52 m)) loc_Exact) (e + -52) 52
               = ({| shr_m := Zpos m; shr_r := false; shr_s := false |}, e)).
  { unfold shr, shr_record_of_loc. rewrite iter_pos_nat.
    change (Pos.to_nat 52) with 52%nat. rewrite shr_shl. f_equal. lia. }
  rewrite S1.
  cbn [shr_m loc_of_shr_record round_nearest_even].
  rewrite C, Z.sub_diag.
  cbn [shr shr_record_of_loc shr_m]. rewrite B. reflexivity.
Qed.

Lemma scale_ones_like (k : float) (a : ndarray) :
  scale k (ones_like a) = map (fun _ => k) a.
Proof.
  unfold scale, ones_like. rewrite map_map.
  apply map_ext. intros _. apply float_mul_1_r.
Qed.

Lemma pynum_rmul_lmul (v : pynum) (k : float) : pynum_rmul v k = pynum_lmul k v.
Proof.
  destruct v as [x|xs]; cbn; f_equal; [apply float_mul_comm|].
  apply map_ext. intros x. apply float_mul_comm.
Qed.

End FloatFacts.

(** ** Logs of computations *)

Section Logs.

Context (P : Platform).

Lemma logs_ret {A} (x : A) (Q : list event -> result A -> Prop) :
  Q [] (inr x) -> logs P (ret x) Q.
Proof.
  intros H s s' r [= <- <-]. exists []. now rewrite app_nil_r.
Qed.

Lemma logs_lift {A} (r0 : result A) (Q : list event -> result A -> Prop) :
  Q [] r0 -> logs P (lift r0) Q.
Proof.
  intros H s s' r [= <- <-]. exists []. now rewrite app_nil_r.
Qed.

Lemma logs_external {A} (f : World P -> World P * result A)
    (ev : result A -> event) (Q : list event -> result A -> Prop) :
  (forall r, Q [ev r] r) -> logs P (external f ev) Q.
Proof.
  intros H s s' r. unfold external. destruct (f (world s)) as [w r0].
  intros [= <- <-]. now exists [ev r0].
Qed.

Lemma logs_bind {A B} (m : M P A) (k : A -> M P B)
    (Q1 : list event -> result A -> Prop) (Q : list event -> result B -> Prop) :
  logs P m Q1 ->
  (forall tr e, Q1 tr (inl e) -> Q tr (inl e)) ->
  (forall tr1 x, Q1 tr1 (inr x) -> logs P (k x) (fun tr2 r => Q (tr1 ++ tr2) r)) ->
  logs P (bind m k) Q.
Proof.
  intros Hm He Hk s s' r. unfold bind.
  destruct (m s) as [s1 [e|x]] eqn:E; destruct (Hm _ _ _ E) as (tr1 & T1 & H1).
  - intros [= <- <-]. exists tr1. auto.
  - intros E2. destruct (Hk _ _ H1 _ _ _ E2) as (tr2 & T2 & H2).
    exists (tr1 ++ tr2). split; [|exact H2]. now rewrite T2, T1, app_assoc.
Qed.

Lemma logs_ensure_dir (d : string) (Q : list event -> result unit -> Prop) :
  Q [] (inr tt) -> (forall r, Q [EvMakedirs d r] r) -> logs P (ensure_dir P d) Q.
Proof.
  intros H0 H1 s s' r. unfold ensure_dir.
  destruct (path_exists P (world s) d).
  - now apply (logs_ret tt).
  - now apply logs_external.
Qed.

Lemma logs_mono {A} (m : M P A) (Q Q' : list event -> result A -> Prop) :
  logs P m Q -> (forall tr r, Q tr r -> Q' tr r) -> logs P m Q'.
Proof.
  intros H HQ s s' r E. destruct (H _ _ _ E) as (tr & T & HQ1). eauto.
Qed.

End Logs.

(** ** External exceptions end the computation they occur in *)

Section FailFast.

Context (P : Platform).

Lemma fail_fast_nil {A} (r : result A) : fail_fast [] r.
Proof. apply ff_quiet. constructor. Qed.

Lemma fail_fast_call {A} (ev : result A -> event) (r : result A) :
  (forall e, event_raised (ev (inl e)) = Some e) ->
  (forall x, event_raised (ev (inr x)) = None) ->
  fail_fast [ev r] r.
Proof.
  intros He Hx. destruct r as [e|x].
  - apply (ff_raised [] (ev (inl e)) e); [constructor|apply He].
  - apply ff_quiet. repeat constructor. apply Hx.
Qed.

Lemma fail_fast_inl {A B} (tr : list event) (e : exn) :
  fail_fast tr (inl e : result A) -> fail_fast tr (inl e : result B).
Proof.
  inversion 1; subst; [now apply ff_quiet|now apply ff_raised].
Qed.

Lemma fail_fast_inr_quiet {A} (tr : list event) (x : A) :
  fail_fast tr (inr x) -> quiet tr.
Proof. now inversion 1. Qed.

Lemma fail_fast_app {A B} (tr1 tr2 : list event) (x : A) (r : result B) :
  fail_fast tr1 (inr x) -> fail_fast tr2 r -> fail_fast (tr1 ++ tr2) r.
Proof.
  intros H1%fail_fast_inr_quiet H2. inversion H2; subst.
  - apply ff_quiet. now apply Forall_app.
  - rewrite app_assoc. apply ff_raised; [now apply Forall_app|assumption].
Qed.

Lemma ff_bind {A B} (m : M P A) (k : A -> M P B) :
  logs P m fail_fast -> (forall x, logs P (k x) fail_fast) ->
  logs P (bind m k) fail_fast.
Proof.
  intros Hm Hk. apply (logs_bind P m k fail_fast); [exact Hm| |].
  - intros tr e. apply fail_fast_inl.
  - intros tr1 x H1. eapply logs_mono; [apply Hk|].
    intros tr2 r. now apply (fail_fast_app tr1 tr2 x).
Qed.

Lemma ff_ret {A} (x : A) : logs P (ret x) fail_fast.
Proof. apply logs_ret, fail_fast_nil. Qed.

Lemma ff_lift {A} (r : result A) : logs P (lift r) fail_fast.
Proof. apply logs_lift, fail_fast_nil. Qed.

Lemma ff_ensure_dir (d : string) : logs P (ensure_dir P d) fail_fast.
Proof.
  apply logs_ensure_dir; [apply fail_fast_nil|].
  intros r. now apply (fail_fast_call (EvMakedirs d)).
Qed.

Lemma ff_compute_model (g : Globals) (wmin wmax : pynum) (wf : float) :
  logs P (compute_model P g wmin wmax wf) fail_fast.
Proof.
  unfold compute_model. apply ff_bind; [|intros; apply ff_ret].
  apply logs_external. intros r. now apply (fail_fast_call (EvRadtrans _)).
Qed.

Lemma ff_enumerate_orders (args : Namespace) :
  logs P (enumerate_orders P args) fail_fast.
Proof.
  unfold enumerate_orders. destruct (arg_wlens_file args) as [f|]; [|apply ff_ret].
  apply ff_bind.
  - apply logs_external. intros r. now apply (fail_fast_call (EvLoad f)).
  - intros A. apply ff_bind; [apply ff_lift|intros; apply ff_ret].
Qed.

Lemma ff_setup (args : Namespace) : logs P (setup P args) fail_fast.
Proof.
  unfold setup.
  apply ff_bind; [apply ff_ensure_dir|intros _].
  apply ff_bind; [apply ff_lift|intros T].
  apply ff_bind; [apply ff_enumerate_orders|intros o].
  apply ff_bind; [apply ff_ensure_dir|intros _]. apply ff_ret.
Qed.

Lemma ff_order_loop (g : Globals) (o : Orders) (Rs : float) (dir : string)
    (idets : list nat) :
  logs P (order_loop P g o Rs dir idets) fail_fast.
Proof.
  induction idets as [|idet idets IH]; cbn [order_loop]; [apply ff_ret|].
  apply ff_bind; [apply ff_lift|intros d].
  apply ff_bind; [apply ff_compute_model|intros [Rtransit wlens]].
  apply ff_bind; [apply ff_lift|intros DF].
  apply ff_bind; [|intros _; exact IH].
  apply logs_external. intros r. now apply (fail_fast_call (EvDump _ _)).
Qed.

Lemma ff_main (args : Namespace) : logs P (main P args) fail_fast.
Proof.
  unfold main. apply ff_bind; [apply ff_setup|intros su; apply ff_order_loop].
Qed.

(** Splitting a log that ends in [ev0] at an entry [ev]. *)
Lemma snoc_split {A} (pre0 pre post : list A) (ev0 ev : A) :
  pre0 ++ [ev0] = pre ++ ev :: post ->
  (post = [] /\ ev = ev0) \/ ev ∈ pre0.
Proof.
  destruct post as [|x post _] using rev_ind.
  - intros [_ ->]%app_inj_tail. now left.
  - change (ev :: post ++ [x]) with ((ev :: post) ++ [x]).
    rewrite app_assoc. intros [-> _]%app_inj_tail. right. set_solver.
Qed.

Lemma fail_fast_last {A} (tr : list event) (r : result A)
    (pre post : list event) (ev : event) (e : exn) :
  fail_fast tr r -> tr = pre ++ ev :: post -> event_raised ev = Some e ->
  post = [] /\ r = inl e.
Proof.
  intros H -> Hev. inversion H as [tr0 r0 Q|tr0 ev0 e0 Q Hev0 E]; subst.
  - exfalso. unfold quiet in Q. rewrite Forall_forall in Q.
    specialize (Q ev). rewrite Hev in Q. discriminate Q. set_solver.
  - apply snoc_split in E as [[-> ->]|Hin].
    + split; [reflexivity|]. congruence.
    + exfalso. unfold quiet in Q. rewrite Forall_forall in Q.
      specialize (Q ev Hin). congruence.
Qed.

End FailFast.

(** ** Error handling *)

(** C8. No exception is caught: whenever an external call of a run (the
    engine, unpickling the wavelength file, creating a directory or
    writing an output file) raises, that call is the last entry of the
    run's log, so nothing is retried and no further order is processed,
    and the exception is the result of the run. *)
Theorem exceptions_propagate (P : Platform) (args : Namespace) (w : World P)
    (pre post : list event) (ev : event) (e : exn) :
  trace (run P args w).1 = pre ++ ev :: post ->
  event_raised ev = Some e ->
  post = [] /\ (run P args w).2 = inl e.
Proof.
  intros T Hev. unfold run in *.
  destruct (main P args _) as [s' r] eqn:E.
  destruct (ff_main P args _ _ _ E) as (tr & T' & FF).
  cbn [fst snd trace app] in *. rewrite T' in T.
  exact (fail_fast_last tr r pre post ev e FF T Hev).
Qed.

(** A run over two orders in which the engine raises on the second one:
    one file has been written, the engine was invoked twice, and the run
    ends with the engine's exception. *)
Lemma exceptions_propagate_witness :
  let P := Sim.platform Sim.two_orders Sim.out (Some 1%nat) in
  let args := parse_args (Sim.command_line (Some "wlens.pic") None None ["H2O"]) in
  let tr := trace (run P args 0%nat).1 in
  (exists ev, tr !! 5%nat = Some ev /\
     event_raised ev = Some (External "petitRADTRANS")) /\
  length tr = 6%nat /\
  length (engine_calls tr) = 2%nat /\
  length (written_files tr) = 1%nat /\
  (run P args 0%nat).2 = inl (External "petitRADTRANS").
Proof.
  intros P args tr.
  assert (Hev : exists ev, tr !! 5%nat = Some ev /\
     event_raised ev = Some (External "petitRADTRANS")).
  { vm_compute. eexists. split; reflexivity. }
  split; [exact Hev|].
  split; [vm_compute; reflexivity|].
  split; [vm_compute; reflexivity|].
  split; [vm_compute; reflexivity|].
  destruct Hev as (ev & L & Hev).
  apply (exceptions_propagate P args 0%nat (take 5 tr) (drop 6 tr) ev).
  - symmetry. apply take_drop_middle. exact L.
  - exact Hev.
Defined.

(** ** The log of the main loop *)

Section MainLoop.

Context (P : Platform).

Lemma order_loop_log (g : Globals) (o : Orders) (Rs : float) (dir : string)
    (idets : list nat) :
  logs P (order_loop P g o Rs dir idets) (loop_log P g o Rs dir idets).
Proof.
  induction idets as [|idet idets IH]; intros s s' r; cbn [order_loop].
  - intros [= <- <-]. exists []. rewrite app_nil_r. split; [reflexivity|constructor].
  - unfold bind at 1, lift at 1.
    destruct (det o !! idet) as [d|] eqn:D; cbn [from_option].
    2:{ intros [= <- <-]. exists []. rewrite app_nil_r.
        split; [reflexivity|now constructor]. }
    unfold bind at 1, compute_model, bind at 1, external at 1.
    fold (order_call g o).
    destruct (radtrans P (world s) (order_call g o)) as [w1 [e|out]].
    { intros [= <- <-]. eexists. split; [reflexivity|].
      now apply (loop_engine_raises _ _ _ _ _ _ _ d). }
    cbn [ret]. unfold bind at 1, lift at 1.
    pose proof (eq_refl (order_file P Rs dir d out)) as F.
    unfold order_file at 2 in F.
    destruct (DF_of P Rs (transm_rad out)) as [e|DF].
    { intros [= <- <-]. eexists. split; [reflexivity|].
      now apply (loop_DF_raises _ _ _ _ _ _ _ d). }
    unfold bind at 1, external. cbn [world trace].
    destruct (pickle_dump P w1 _ _) as [w2 [e|[]]].
    { intros [= <- <-]. eexists. split; [cbn [trace]; rewrite <- app_assoc; reflexivity|].
      exact (loop_dump_raises _ _ _ _ _ _ _ d out _ e D F). }
    intros E. destruct (IH _ _ _ E) as (tr & T & L). cbn [trace] in T.
    eexists. split; [rewrite T, <- !app_assoc; reflexivity|].
    exact (loop_next _ _ _ _ _ _ _ d out _ tr r D F L).
Qed.

Lemma order_file_inr (Rs : float) (dir : string) (d : Z) (out : RadtransOut)
    (file : string * list ndarray) :
  order_file P Rs dir d out = inr file ->
  exists Rs2,
    pow_float_int P Rs 2 = inr Rs2 /\
    file = (rep_fin_of dir d,
            [wlens_of P (freq out);
             map (fun r => (-1.0 * ndarray_pow P r 2) / Rs2) (transm_rad out)]).
Proof.
  unfold order_file, DF_of.
  destruct (pow_float_int P Rs 2) as [e|Rs2]; [discriminate|].
  intros [= <-]. eauto.
Qed.

Lemma order_file_inl (Rs : float) (dir : string) (d : Z) (out : RadtransOut)
    (e : exn) :
  order_file P Rs dir d out = inl e -> pow_float_int P Rs 2 = inl e.
Proof.
  unfold order_file, DF_of.
  destruct (pow_float_int P Rs 2) as [e'|Rs2]; [now intros [= <-]|discriminate].
Qed.

Lemma loop_log_calls (g : Globals) (o : Orders) (Rs : float) (dir : string)
    (idets : list nat) (tr : list event) (r : result unit) :
  loop_log P g o Rs dir idets tr r ->
  Forall (fun c => c = order_call g o) (engine_calls tr) /\
  match pow_float_int P Rs 2 with
  | inr Rs2 =>
      omap dump_object tr
      = map (fun out =>
               [wlens_of P (freq out);
                map (fun r => (-1.0 * ndarray_pow P r 2) / Rs2) (transm_rad out)])
            (engine_outputs tr)
  | inl _ => omap dump_object tr = []
  end.
Proof.
  induction 1 as [| | |idet idets d out e D F|idet idets d out file e D F
                 |idet idets d out file tr r D F L (IH1 & IH2)];
    try (split; [repeat constructor|]; now destruct (pow_float_int P Rs 2)).
  - split; [repeat constructor|].
    apply order_file_inl in F. now rewrite F.
  - split; [repeat constructor|].
    apply order_file_inr in F as (Rs2 & -> & ->). reflexivity.
  - split; [cbn; now constructor|].
    apply order_file_inr in F as (Rs2 & F & ->). rewrite F in *.
    cbn. now rewrite IH2.
Qed.

Lemma loop_log_success (g : Globals) (o : Orders) (Rs : float) (dir : string)
    (idets : list nat) (tr : list event) :
  loop_log P g o Rs dir idets tr (inr tt) ->
  exists ds,
    Forall2 (fun idet d => det o !! idet = Some d) idets ds /\
    length (engine_outputs tr) = length idets /\
    length (engine_calls tr) = length idets /\
    match pow_float_int P Rs 2 with
    | inr Rs2 =>
        written_files tr
        = zip_with (fun d out =>
                      (rep_fin_of dir d,
                       [wlens_of P (freq out);
                        map (fun r => (-1.0 * ndarray_pow P r 2) / Rs2)
                            (transm_rad out)]))
                   ds (engine_outputs tr)
    | inl _ => idets = [] /\ written_files tr = []
    end /\
    (written_files tr).*1 = rep_fin_of dir <$> ds.
Proof.
  remember (inr tt) as r eqn:R.
  induction 1 as [| | | | |idet idets d out file tr r D F L IH]; try discriminate R.
  - exists []. repeat split; try constructor. now destruct (pow_float_int P Rs 2).
  - destruct (IH R) as (ds & F2 & L1 & L2 & W & N). exists (d :: ds).
    split; [now constructor|].
    apply order_file_inr in F as (Rs2 & F & ->). rewrite F in *.
    cbn [fst snd].
    match goal with
    | |- context [EvRadtrans ?c (inr out) :: EvDump ?p ?obj (inr tt) :: tr] =>
        change (engine_outputs (EvRadtrans c (inr out) :: EvDump p obj (inr tt) :: tr))
          with (out :: engine_outputs tr);
        change (engine_calls (EvRadtrans c (inr out) :: EvDump p obj (inr tt) :: tr))
          with (c :: engine_calls tr);
        change (written_files (EvRadtrans c (inr out) :: EvDump p obj (inr tt) :: tr))
          with ((p, obj) :: written_files tr)
    end.
    cbn [length zip_with]. rewrite L1, L2, <- W, fmap_cons, N.
    repeat split.
Qed.

(** Looking up every index of a list gives the list back. *)
Lemma lookup_all {A} (l ds : list A) :
  Forall2 (fun i d => l !! i = Some d) (seq 0 (length l)) ds -> ds = l.
Proof.
  intros F. apply list_eq. intros i.
  destruct (decide (i < length l)) as [Hi|Hi].
  - assert (S : seq 0 (length l) !! i = Some i) by now apply lookup_seq_lt.
    destruct (Forall2_lookup_l _ _ _ _ _ F S) as (d & Hd & Hl). now rewrite Hd, Hl.
  - rewrite (lookup_ge_None_2 l) by lia.
    apply lookup_ge_None_2. apply Forall2_length in F.
    rewrite length_seq in F. lia.
Qed.

End MainLoop.

(** ** What [setup] returns and logs *)

Lemma string_app_assoc (a b c : string) : (a +:+ b) +:+ c = a +:+ b +:+ c.
Proof.
  induction a as [|x a IH]; [reflexivity|].
  change (String x ((a +:+ b) +:+ c) = String x (a +:+ b +:+ c)). now rewrite IH.
Qed.

Lemma string_app_nil_r (a : string) : a +:+ "" = a.
Proof.
  induction a as [|x a IH]; [reflexivity|].
  change (String x (a +:+ "") = String x a). now rewrite IH.
Qed.

Section Setup.

Context (P : Platform).

Lemma bind_inr {A B} (m : M P A) (k : A -> M P B) (s s' : State P) (y : B) :
  bind m k s = (s', inr y) ->
  exists s1 x, m s = (s1, inr x) /\ k x s1 = (s', inr y).
Proof.
  unfold bind. destruct (m s) as [s1 [e|x]]; [discriminate|]. eauto.
Qed.

Lemma setup_inv (args : Namespace) (s s1 : State P) (su : Setup) :
  setup P args s = (s1, inr su) ->
  exists T sa sb,
    temperature P (arg_Teff args) (arg_Tint args) (arg_Teq args) = inr T /\
    enumerate_orders P args sa = (sb, inr (orders su)) /\
    globals su = profile P args T /\
    Rs su = arg_Rs args * nc_r_sun P /\
    save_dir su
    = "pRT_models/" +:+ arg_planet args +:+ "_1xSolar_"
      +:+ str_join "_" (arg_species args) +:+ "_R1M/"
      +:+ (if order_by_order (orders su) then "order_by_order/" else "").
Proof.
  unfold setup. intros E.
  apply bind_inr in E as (s2 & [] & _ & E).
  apply bind_inr in E as (s3 & T & ET & E). injection ET as <- ET.
  apply bind_inr in E as (s4 & o & Eo & E).
  apply bind_inr in E as (s5 & [] & _ & E).
  injection E as <- <-. exists T, s2, s4. cbn [globals orders Rs save_dir].
  repeat split; try assumption.
  destruct (order_by_order o).
  - now rewrite !string_app_assoc.
  - now rewrite string_app_nil_r.
Qed.

Lemma all_bind {A B} (E : event -> Prop) (m : M P A) (k : A -> M P B) :
  logs P m (fun tr _ => Forall E tr) ->
  (forall x, logs P (k x) (fun tr _ => Forall E tr)) ->
  logs P (bind m k) (fun tr _ => Forall E tr).
Proof.
  intros Hm Hk. apply (logs_bind P m k (fun tr _ => Forall E tr)); [exact Hm|auto|].
  intros tr1 x H1. eapply logs_mono; [apply Hk|].
  intros tr2 r. cbn. now apply Forall_app_2.
Qed.

Lemma setup_events (args : Namespace) :
  logs P (setup P args) (fun tr _ => Forall is_setup_event tr).
Proof.
  assert (Hdir : forall d, logs P (ensure_dir P d) (fun tr _ => Forall is_setup_event tr)).
  { intros d. apply logs_ensure_dir; repeat constructor. }
  unfold setup.
  apply all_bind; [apply Hdir|intros _].
  apply all_bind; [apply logs_lift; constructor|intros T].
  apply all_bind; [|intros o].
  - unfold enumerate_orders. destruct (arg_wlens_file args) as [f|].
    + apply all_bind; [apply logs_external; repeat constructor|intros A].
      apply all_bind; [apply logs_lift; constructor|intros W].
      apply logs_ret; constructor.
    + apply logs_ret; constructor.
  - apply all_bind; [apply Hdir|intros _]. apply logs_ret; constructor.
Qed.

Lemma setup_events_silent (tr : list event) :
  Forall is_setup_event tr ->
  engine_calls tr = [] /\ engine_outputs tr = [] /\
  written_files tr = [] /\ omap dump_object tr = [].
Proof.
  induction 1 as [|ev tr Hev _ IH]; [easy|].
  destruct ev; try contradiction; exact IH.
Qed.

Lemma run_inv (args : Namespace) (w : World P) :
  run_log P args w (trace (run P args w).1) (run P args w).2.
Proof.
  unfold run, main, bind.
  destruct (setup P args _) as [s1 [e|su]] eqn:E.
  - now apply run_setup_raises.
  - destruct (order_loop P _ _ _ _ _ s1) as [s' r] eqn:E2. cbn [fst snd].
    destruct (order_loop_log P _ _ _ _ _ _ _ _ E2) as (tr & -> & L).
    now apply (run_loops P args w s1 su).
Qed.

Lemma setup_silent (args : Namespace) (w : World P) (s1 : State P)
    (r : result Setup) :
  setup P args {| world := w; trace := [] |} = (s1, r) ->
  engine_calls (trace s1) = [] /\ engine_outputs (trace s1) = [] /\
  written_files (trace s1) = [] /\ omap dump_object (trace s1) = [].
Proof.
  intros E. destruct (setup_events args _ _ _ E) as (tr & -> & F).
  now apply setup_events_silent.
Qed.

End Setup.

(** ** Order enumeration *)

Section OrderEnumeration.

Context (P : Platform).

Lemma window_loop_spec (A : list ndarray) (idets : list nat)
    (a1 a2 W1 W2 : ndarray) :
  window_loop A idets a1 a2 = inr (W1, W2) ->
  exists X1 X2,
    W1 = a1 ++ X1 /\ W2 = a2 ++ X2 /\
    Forall2 (fun idet lo => exists a, A !! idet = Some a /\ head a = Some lo)
            idets X1 /\
    Forall2 (fun idet hi => exists a, A !! idet = Some a /\ last a = Some hi)
            idets X2.
Proof.
  revert a1 a2. induction idets as [|idet idets IH]; intros a1 a2; cbn [window_loop].
  - intros [= <- <-]. exists [], []. rewrite !app_nil_r. repeat split; constructor.
  - destruct (A !! idet) as [a|] eqn:L; [|discriminate].
    destruct (head a) as [lo|] eqn:Hlo; [|discriminate].
    destruct (last a) as [hi|] eqn:Hhi; [|discriminate].
    intros E. destruct (IH _ _ E) as (X1 & X2 & -> & -> & F1 & F2).
    exists (lo :: X1), (hi :: X2). rewrite <- !app_assoc.
    repeat split; constructor; eauto.
Qed.

Lemma window_loop_total (A : list ndarray) (idets : list nat) (a1 a2 : ndarray) :
  Forall (fun idet => exists a, A !! idet = Some a /\ a <> []) idets ->
  exists W, window_loop A idets a1 a2 = inr W.
Proof.
  intros F. revert a1 a2.
  induction F as [|idet idets (a & L & Ha) _ IH]; intros a1 a2; cbn [window_loop].
  - eauto.
  - rewrite L. destruct a as [|x a]; [contradiction|]. cbn [head hd_error].
    destruct (last (x :: a)) as [hi|] eqn:Hhi; [apply IH|].
    now apply last_None in Hhi.
Qed.

Lemma enumerate_no_file (args : Namespace) (s : State P) :
  arg_wlens_file args = None ->
  enumerate_orders P args s
  = (s, inr {| order_by_order := false;
               ndet := 1;
               W_min := PyFloat (arg_wmin args);
               W_max := PyFloat (arg_wmax args);
               Wm := pynum_mean (PyFloat (arg_wmin args)) (PyFloat (arg_wmax args));
               det := [1%Z] |}).
Proof. unfold enumerate_orders. now intros ->. Qed.

Lemma enumerate_file_inv (args : Namespace) (f : string) (s s' : State P)
    (o : Orders) :
  arg_wlens_file args = Some f ->
  enumerate_orders P args s = (s', inr o) ->
  exists A W1 W2,
    window_loop A (seq 0 (length A)) [] [] = inr (W1, W2) /\
    order_by_order o = true /\
    ndet o = length A /\
    W_min o = NdArray (map (fun x => x / 1e3) W1) /\
    W_max o = NdArray (map (fun x => x / 1e3) W2) /\
    det o = map Z.of_nat (seq 0 (length A)).
Proof.
  unfold enumerate_orders. intros -> E.
  apply bind_inr in E as (s1 & A & _ & E).
  apply bind_inr in E as (s2 & [W1 W2] & EW & E).
  injection EW as <- EW. injection E as <- <-.
  exists A, W1, W2. now repeat split.
Qed.

Lemma enumerate_det (args : Namespace) (s s' : State P) (o : Orders) :
  enumerate_orders P args s = (s', inr o) ->
  length (det o) = ndet o /\ NoDup (det o) /\
  order_by_order o = bool_decide (is_Some (arg_wlens_file args)).
Proof.
  destruct (arg_wlens_file args) as [f|] eqn:F; intros E.
  - destruct (enumerate_file_inv args f _ _ _ F E) as (A & W1 & W2 & _ & -> & -> & _ & _ & ->).
    rewrite length_map, length_seq. repeat split.
    apply (NoDup_fmap_2 Z.of_nat), NoDup_seq.
  - rewrite (enumerate_no_file args s F) in E. injection E as _ <-.
    repeat split. apply NoDup_singleton.
Qed.

(** C6. With a wavelength file that unpickles to the list [A] of non-empty
    arrays, order enumeration returns, the number of orders is the number
    of entries of [A], and for every entry the order's minimum wavelength
    is its first element divided by 1000 and the maximum is its last
    element divided by 1000. *)
Theorem orders_from_file (args : Namespace) (f : string) (s : State P)
    (w' : World P) (A : list ndarray) :
  arg_wlens_file args = Some f ->
  pickle_load P (world s) f = (w', inr A) ->
  Forall (fun a => a <> []) A ->
  exists o Wmin Wmax,
    enumerate_orders P args s
    = ({| world := w'; trace := trace s ++ [EvLoad f (inr A)] |}, inr o) /\
    ndet o = length A /\
    W_min o = NdArray Wmin /\ W_max o = NdArray Wmax /\
    length Wmin = length A /\ length Wmax = length A /\
    forall (i : nat) (a : ndarray), A !! i = Some a ->
      exists lo hi,
        head a = Some lo /\ last a = Some hi /\
        Wmin !! i = Some (lo / 1000) /\ Wmax !! i = Some (hi / 1000).
Proof.
  intros F L NE.
  destruct (window_loop_total A (seq 0 (length A)) [] []) as ([W1 W2] & EW).
  { apply Forall_forall. intros i Hi%elem_of_seq.
    destruct (lookup_lt_is_Some_2 A i) as [a La]; [lia|].
    exists a. split; [assumption|].
    rewrite Forall_forall in NE. apply NE. eapply list_elem_of_lookup_2, La. }
  destruct (window_loop_spec _ _ _ _ _ _ EW) as (X1 & X2 & -> & -> & F1 & F2).
  cbn [app] in EW.
  eexists _, (map (fun x => x / 1e3) X1), (map (fun x => x / 1e3) X2).
  split.
  { unfold enumerate_orders. rewrite F. unfold bind at 1, external. rewrite L.
    unfold bind, lift. rewrite EW. reflexivity. }
  cbn [ndet W_min W_max fst snd].
  pose proof (Forall2_length _ _ _ F1) as L1.
  pose proof (Forall2_length _ _ _ F2) as L2.
  rewrite length_seq in L1, L2. rewrite !length_map.
  repeat split; try congruence.
  intros i a La.
  assert (Hi : seq 0 (length A) !! i = Some i).
  { apply lookup_seq_lt. eapply lookup_lt_Some, La. }
  destruct (Forall2_lookup_l _ _ _ _ _ F1 Hi) as (lo & Hlo & a1 & La1 & H1).
  destruct (Forall2_lookup_l _ _ _ _ _ F2 Hi) as (hi & Hhi & a2 & La2 & H2).
  exists lo, hi. rewrite !list_lookup_fmap, Hlo, Hhi.
  replace a with a1 by congruence. split; [assumption|].
  replace a1 with a2 by congruence. now repeat split.
Qed.

End OrderEnumeration.

(** The two orders of [Sim.two_orders] become the windows 1.0 to 1.1 and
    2.0 to 2.2 microns. *)
Lemma orders_from_file_witness :
  let P := Sim.platform Sim.two_orders Sim.out None in
  let args := parse_args (Sim.command_line (Some "wlens.pic") None None ["H2O"]) in
  exists o Wmin Wmax,
    enumerate_orders P args (Build_State P 0%nat [])
    = (Build_State P 0%nat ([] ++ [EvLoad "wlens.pic" (inr Sim.two_orders)]),
       inr o) /\
    ndet o = length Sim.two_orders /\
    W_min o = NdArray Wmin /\ W_max o = NdArray Wmax /\
    length Wmin = length Sim.two_orders /\ length Wmax = length Sim.two_orders /\
    forall (i : nat) (a : ndarray), Sim.two_orders !! i = Some a ->
      exists lo hi,
        head a = Some lo /\ last a = Some hi /\
        Wmin !! i = Some (lo / 1000) /\ Wmax !! i = Some (hi / 1000).
Proof.
  intros P args.
  apply (orders_from_file P args "wlens.pic" (Build_State P 0%nat [])
           0%nat Sim.two_orders).
  - reflexivity.
  - reflexivity.
  - repeat constructor; discriminate.
Defined.

(** ** Runs *)

Section Runs.

Context (P : Platform).

(** Every engine call of a run is the call of the main loop, built from
    what [setup] returned. *)
Lemma run_engine_calls (args : Namespace) (w : World P) :
  Forall (fun c => exists s1 su,
            setup P args {| world := w; trace := [] |} = (s1, inr su) /\
            c = order_call (globals su) (orders su))
         (engine_calls (trace (run P args w).1)).
Proof.
  destruct (run_inv P args w) as [s1 e E|s1 su tr r E L].
  - destruct (setup_silent P _ _ _ _ E) as (-> & _). constructor.
  - unfold engine_calls. rewrite omap_app.
    destruct (setup_silent P _ _ _ _ E) as (C & _).
    unfold engine_calls in C. rewrite C. cbn [app].
    apply loop_log_calls in L as [L _].
    eapply Forall_impl; [exact L|]. intros c ->. eauto.
Qed.

(** X1. The engine is called over one and the same window, with the same
    arguments, in every pass of the main loop. *)
Lemma engine_calls_identical (args : Namespace) (w : World P)
    (c1 c2 : RadtransCall) :
  c1 ∈ engine_calls (trace (run P args w).1) ->
  c2 ∈ engine_calls (trace (run P args w).1) ->
  c1 = c2.
Proof.
  pose proof (run_engine_calls args w) as F. rewrite Forall_forall in F.
  intros (s1 & su1 & E1 & ->)%F (s2 & su2 & E2 & ->)%F.
  rewrite E1 in E2. now injection E2 as _ <-.
Qed.

End Runs.

(** ** The claims on the atmosphere profile and the engine call *)

(** C2, as amended. For every order, the flux-decrement array handed to
    [pickle.dump] is the NEGATIVE of the squared radius ratio: elementwise
    [-1.0 * Rtransit**2 / Rs**2], where [Rtransit] is the transit-radius
    array the engine returned for that order and [Rs] is the stellar
    radius in cm. (When [Rs**2] overflows, the script raises
    OverflowError instead and serializes nothing.) *)
Theorem flux_decrement_serialized (P : Platform) (args : Namespace) (w : World P) :
  match pow_float_int P (arg_Rs args * nc_r_sun P) 2 with
  | inr Rs2 =>
      omap dump_object (trace (run P args w).1)
      = map (fun out =>
               [wlens_of P (freq out);
                map (fun r => (-1.0 * ndarray_pow P r 2) / Rs2) (transm_rad out)])
            (engine_outputs (trace (run P args w).1))
  | inl _ => omap dump_object (trace (run P args w).1) = []
  end.
Proof.
  destruct (run_inv P args w) as [s1 e E|s1 su tr r E L].
  - destruct (setup_silent P _ _ _ _ E) as (_ & -> & _ & ->).
    now destruct (pow_float_int P _ 2).
  - unfold engine_outputs. rewrite !omap_app.
    destruct (setup_silent P _ _ _ _ E) as (_ & C1 & _ & C2).
    unfold engine_outputs in C1. rewrite C1, C2. cbn [app].
    apply loop_log_calls in L as [_ L].
    apply setup_inv in E as (_ & _ & _ & _ & _ & _ & E & _). rewrite E in L.
    exact L.
Qed.

(** C2 as stated fails: in a single-model run whose engine returns the
    radii 7.0e9 and 7.1e9 cm, the serialized flux decrements are negative
    while the squared radius ratios are positive. *)
Lemma flux_decrement_not_squared_ratio :
  let P := Sim.platform [] Sim.out None in
  let args := parse_args (Sim.command_line None None None ["H2O"]) in
  exists path wlens DF ratio,
    written_files (trace (run P args 0%nat).1) = [(path, [wlens; DF])] /\
    squared_radius_ratio P (arg_Rs args * nc_r_sun P) (transm_rad Sim.out) = ratio /\
    Forall (fun x => (x <? 0) = true) DF /\
    Forall (fun x => (0 <? x) = true) ratio /\
    DF <> ratio.
Proof.
  intros P args. vm_compute.
  do 4 eexists. split; [reflexivity|]. split; [reflexivity|].
  split; [repeat constructor|]. split; [repeat constructor|].
  intros E.
  apply (f_equal (fun l => match l with x :: _ => x <? 0 | [] => false end)) in E.
  vm_compute in E. discriminate E.
Qed.

(** C1, on the code. With a wavelength file of two orders (1000 to 1100 nm
    and 2000 to 2200 nm) the engine is invoked twice, and both times over
    the same window: the bounds are the arrays of all the orders' minima
    and maxima, not the bounds of the order being processed. *)
Theorem engine_window_same_for_every_order :
  let P := Sim.platform Sim.two_orders Sim.out None in
  let args := parse_args (Sim.command_line (Some "wlens.pic") None None ["H2O"]) in
  let W_min := [1000 / 1e3; 2000 / 1e3] in
  let W_max := [1100 / 1e3; 2200 / 1e3] in
  let window := (NdArray (map (fun x => (1 - 0.01) * x) W_min),
                 NdArray (map (fun x => x * (1 + 0.01)) W_max)) in
  map wlen_bords_micron (engine_calls (trace (run P args 0%nat).1))
  = [window; window].
Proof. vm_compute. reflexivity. Qed.

(** C3. In every run the abundance mapping handed to the engine has
    exactly the eight keys H2, He, H2O_main_iso, CO_all_iso, NH3,
    CO2_main_iso, CH4_main_iso and HCN_main_iso, whatever [--species]
    selects; selecting NH3 (resp. H2) puts NH3_main_iso (resp.
    H2_main_iso) on the line-species list although the mapping has no
    entry under that key. *)
Theorem abundance_keys_fixed (P : Platform) (args : Namespace) (w : World P) :
  Forall (fun c =>
      dom (rc_abundances c)
      = ({[ "H2"; "He"; "H2O_main_iso"; "CO_all_iso"; "NH3";
            "CO2_main_iso"; "CH4_main_iso"; "HCN_main_iso" ]} : gset string) /\
      ("NH3" ∈ arg_species args ->
         "NH3_main_iso" ∈ line_species c /\
         rc_abundances c !! "NH3_main_iso" = None) /\
      ("H2" ∈ arg_species args ->
         "H2_main_iso" ∈ line_species c /\
         rc_abundances c !! "H2_main_iso" = None))
    (engine_calls (trace (run P args w).1)).
Proof.
  eapply Forall_impl; [apply run_engine_calls|].
  intros c (s1 & su & E & ->).
  apply setup_inv in E as (T & _ & _ & _ & _ & -> & _).
  cbn [order_call radtrans_call rc_abundances line_species profile
       g_abundances g_LS].
  assert (D : dom (abundances P)
      = ({[ "H2"; "He"; "H2O_main_iso"; "CO_all_iso"; "NH3";
            "CO2_main_iso"; "CH4_main_iso"; "HCN_main_iso" ]} : gset string)).
  { unfold abundances. cbv zeta. rewrite !dom_insert_L, dom_empty_L. set_solver. }
  split; [exact D|]. split; intros Hsp.
  - split.
    + unfold LS. cbv zeta. rewrite (decide_True (P := "NH3" ∈ _)) by assumption.
      destruct (decide ("H2" ∈ arg_species args)); set_solver.
    + unfold abundances. cbv zeta.
      rewrite !lookup_insert_ne by discriminate. apply lookup_empty.
  - split.
    + unfold LS. cbv zeta. rewrite (decide_True (P := "H2" ∈ _)) by assumption.
      set_solver.
    + unfold abundances. cbv zeta.
      rewrite !lookup_insert_ne by discriminate. apply lookup_empty.
Qed.

Lemma py_float_inr (z : Z) (t : float) : py_float z = inr t -> t = float_of_Z z.
Proof. unfold py_float. destruct (is_infinity _); [discriminate|now intros [= <-]]. Qed.

(** X15. In every run the temperature array handed to the engine is
    uniform over the pressure grid. With [--Teff] and [--Tint] both
    given, every entry is [Teff * X ** 0.25] for
    [X = (Tint XOR (4 + Teq)) XOR 4], which is how Python reads
    [Tint^4+Teq^4]: a float64 array when the power is a float and a
    complex128 array when it is complex (negative [X]). Without [--Teff]
    every entry is [Teq]. (When the power raises or [--Tint] is missing,
    the engine is not called.) *)
Theorem temperature_entries (P : Platform) (args : Namespace) (w : World P) :
  Forall (fun c =>
      match arg_Teff args, arg_Tint args with
      | Some Teff, Some Tint =>
          match pow_int_float P (Z.lxor (Z.lxor Tint (4 + arg_Teq args)) 4) 0.25 with
          | inr (PyReal x) =>
              rc_temperature c
              = Float64 (map (fun _ => float_of_Z Teff * x) (pressures P))
          | inr (PyComplex re im) =>
              rc_temperature c
              = Complex128
                  (map (fun _ => complex_mul (complex_mul (float_of_Z Teff, 0) (re, im))
                                             (1, 0))
                       (pressures P))
          | inl _ => False
          end
      | Some _, None => False
      | None, _ =>
          rc_temperature c
          = Float64 (map (fun _ => float_of_Z (arg_Teq args)) (pressures P))
      end)
    (engine_calls (trace (run P args w).1)).
Proof.
  eapply Forall_impl; [apply run_engine_calls|].
  intros c (s1 & su & E & ->).
  apply setup_inv in E as (T & _ & _ & ET & _ & -> & _).
  cbn [order_call radtrans_call rc_temperature profile g_temperature].
  unfold temperature, scalar_temperature, radicand in ET.
  destruct (arg_Teff args) as [Teff|], (arg_Tint args) as [Tint|];
    try discriminate ET.
  - destruct (pow_int_float P _ 0.25) as [e|p]; [discriminate ET|].
    destruct (py_float Teff) as [e|t] eqn:Et; [discriminate ET|].
    apply py_float_inr in Et as ->. injection ET as <-.
    destruct p as [x|re im]; cbn [py_mul py_mul_array fst snd].
    + now rewrite scale_ones_like.
    + unfold ones_like. now rewrite map_map.
  - destruct (py_float (arg_Teq args)) as [e|t] eqn:Et; [discriminate ET|].
    apply py_float_inr in Et as ->. injection ET as <-.
    now rewrite scale_ones_like.
  - destruct (py_float (arg_Teq args)) as [e|t] eqn:Et; [discriminate ET|].
    apply py_float_inr in Et as ->. injection ET as <-.
    now rewrite scale_ones_like.
Qed.

(** C4, on the code. With Teff = 5000, Tint = 100 and Teq = 1500 the
    script raises 100 XOR 1504 XOR 4 = 1408 to the power 0.25, where the
    claim has (100 XOR 4) + (1500 XOR 4) = 1592; every entry of the
    temperature array is about 30628, below the claim's 31583. *)
Theorem temperature_not_xor_sum :
  let P := Sim.platform [] Sim.out None in
  let args := parse_args (Sim.command_line None (Some 5000%Z) (Some 100%Z) ["H2O"]) in
  exists T stated,
    map rc_temperature (engine_calls (trace (run P args 0%nat).1))
    = [Float64 [T; T; T]] /\
    xor_sum_temperature P 5000 100 1500 = inr (PyReal stated) /\
    radicand 100 1500 = 1408%Z /\
    (Z.lxor 100 4 + Z.lxor 1500 4 = 1592)%Z /\
    (T <? 31000) = true /\ (31000 <? stated) = true /\
    T <> stated.
Proof.
  intros P args. vm_compute.
  do 2 eexists. do 6 (split; [reflexivity|]).
  intros E. apply (f_equal (fun x => x <? 31000)) in E.
  vm_compute in E. discriminate E.
Qed.

(** C5. Every invocation of [compute_model] with the bounds [wmin] and
    [wmax] and the margin [wfactor] = 0.01, the one the main loop passes,
    makes one engine call, over the window from [(1-0.01)*wmin] to
    [(1+0.01)*wmax]. *)
Theorem window_padded (P : Platform) (g : Globals) (wmin wmax : pynum)
    (s : State P) :
  wfactor = 0.01 /\
  exists c r,
    trace (compute_model P g wmin wmax wfactor s).1 = trace s ++ [EvRadtrans c r] /\
    wlen_bords_micron c
    = (pynum_lmul (1 - 0.01) wmin, pynum_lmul (1 + 0.01) wmax).
Proof.
  split; [reflexivity|].
  unfold compute_model, bind, external.
  destruct (radtrans P (world s) _) as [w' [e|out]];
    do 2 eexists; (split; [reflexivity|]);
    cbn [radtrans_call wlen_bords_micron]; now rewrite pynum_rmul_lmul.
Qed.

(** ** Orders, output directory and output files *)

Lemma string_length_app (a b : string) :
  String.length (a +:+ b) = (String.length a + String.length b)%nat.
Proof.
  induction a as [|x a IH]; [reflexivity|].
  change (S (String.length (a +:+ b)) = S (String.length a + String.length b)).
  now rewrite IH.
Qed.

Lemma string_app_inj_r (a b c : string) : a +:+ c = b +:+ c -> a = b.
Proof.
  revert b. induction a as [|x a IH]; intros [|y b] H.
  - reflexivity.
  - apply (f_equal String.length) in H. rewrite !string_length_app in H.
    cbn in H. lia.
  - apply (f_equal String.length) in H. rewrite !string_length_app in H.
    cbn in H. lia.
  - change (String x (a +:+ c) = String y (b +:+ c)) in H.
    injection H as -> H. f_equal. now apply IH.
Qed.

Lemma rep_fin_of_inj (dir : string) : Inj eq eq (rep_fin_of dir).
Proof.
  intros d d' H. unfold rep_fin_of in H.
  apply (inj (String.append dir)) in H.
  apply (inj (String.append "template_det")) in H.
  apply string_app_inj_r in H. now apply (inj pretty) in H.
Qed.

Lemma fst_zip_with {A B C D} (g : A -> C) (h : A -> B -> D) (l : list A)
    (k : list B) :
  length l = length k ->
  (zip_with (fun x y => (g x, h x y)) l k).*1 = g <$> l.
Proof.
  revert k. induction l as [|x l IH]; intros [|y k] L; try discriminate L.
  - reflexivity.
  - cbn. f_equal. apply IH. now injection L.
Qed.

Section OrdersAndFiles.

Context (P : Platform).

Lemma loop_log_single (g : Globals) (o : Orders) (Rs : float) (dir : string)
    (idet : nat) (d : Z) (tr : list event) (r : result unit) :
  det o !! idet = Some d ->
  loop_log P g o Rs dir [idet] tr r ->
  engine_calls tr = [order_call g o].
Proof.
  intros D L. inversion L as [|? ? N| | | |? ? ? ? ? ? ? ? ? L']; subst;
    try reflexivity; [congruence|].
  inversion L'; subst. reflexivity.
Qed.

(** C7. Without a wavelength file exactly one order is processed:
    [ndet = 1], [det = [1]], the window is [--wmin] to [--wmax], which
    default to 1.2 and 2.5 microns, and a run that gets as far as the
    main loop invokes the engine exactly once, over that window padded. *)
Theorem single_order_without_file (cl : CommandLine) (w : World P)
    (s1 : State P) (su : Setup) :
  cl_wlens_file cl = None ->
  setup P (parse_args cl) {| world := w; trace := [] |} = (s1, inr su) ->
  arg_wmin (parse_args cl) = default 1.2 (cl_wmin cl) /\
  arg_wmax (parse_args cl) = default 2.5 (cl_wmax cl) /\
  ndet (orders su) = 1%nat /\
  det (orders su) = [1%Z] /\
  W_min (orders su) = PyFloat (arg_wmin (parse_args cl)) /\
  W_max (orders su) = PyFloat (arg_wmax (parse_args cl)) /\
  exists c,
    engine_calls (trace (run P (parse_args cl) w).1) = [c] /\
    wlen_bords_micron c
    = (PyFloat ((1 - 0.01) * arg_wmin (parse_args cl)),
       PyFloat ((1 + 0.01) * arg_wmax (parse_args cl))).
Proof.
  intros F E. set (args := parse_args cl) in *.
  assert (F' : arg_wlens_file args = None) by exact F.
  destruct (setup_inv P _ _ _ _ E) as (T & sa & sb & _ & Eo & _).
  rewrite (enumerate_no_file P args sa F') in Eo. injection Eo as _ Eo.
  destruct su as [g o R dir]. cbn [orders globals Rs save_dir] in *. subst o.
  cbn [ndet det W_min W_max]. do 6 (split; [reflexivity|]).
  eexists. split.
  - destruct (run_inv P args w) as [s1' e E'|s1' su' tr r E' L];
      rewrite E in E'; [discriminate E'|]. injection E' as <- <-.
    unfold engine_calls. rewrite omap_app.
    destruct (setup_silent P _ _ _ _ E) as (C & _).
    unfold engine_calls in C. rewrite C. cbn [app].
    cbn [orders globals Rs save_dir ndet seq] in L.
    apply (loop_log_single _ _ _ _ _ 1%Z) in L; [exact L|reflexivity].
  - cbn [order_call radtrans_call wlen_bords_micron W_min W_max
         pynum_lmul pynum_rmul].
    now rewrite (float_mul_comm (arg_wmax args)).
Qed.

(** C9. The output directory is ['pRT_models/' + planet + '_1xSolar_' +
    the species joined by '_' + '_R1M/'], followed by ['order_by_order/']
    exactly when a wavelength file was given. *)
Theorem output_directory (args : Namespace) (s s1 : State P) (su : Setup) :
  setup P args s = (s1, inr su) ->
  save_dir su
  = "pRT_models/" +:+ arg_planet args +:+ "_1xSolar_"
    +:+ str_join "_" (arg_species args) +:+ "_R1M/"
    +:+ match arg_wlens_file args with
        | Some _ => "order_by_order/"
        | None => ""
        end.
Proof.
  intros E. destruct (setup_inv P _ _ _ _ E) as (T & sa & sb & _ & Eo & _ & _ & ->).
  apply enumerate_det in Eo as (_ & _ & ->).
  now destruct (arg_wlens_file args).
Qed.

(** C10. In a run that completes, every order index [i] of [range(ndet)]
    has exactly one output file, named [save_dir + 'template_det' +
    str(det[i]) + '.pic'] and holding the list of the wavelength array and
    the flux-decrement array computed from the engine output of that
    order; the file names of different orders differ. ([Rs**2] is
    evaluated once per order, so if it overflows a run completes only
    when there is no order.) *)
Theorem one_file_per_order (args : Namespace) (w : World P) :
  (run P args w).2 = inr tt ->
  exists s1 su,
    setup P args {| world := w; trace := [] |} = (s1, inr su) /\
    length (det (orders su)) = ndet (orders su) /\
    length (engine_outputs (trace (run P args w).1)) = ndet (orders su) /\
    match pow_float_int P (Rs su) 2 with
    | inr Rs2 =>
        written_files (trace (run P args w).1)
        = zip_with (fun d out =>
                      (save_dir su +:+ "template_det" +:+ pretty d +:+ ".pic",
                       [wlens_of P (freq out);
                        map (fun r => (-1.0 * ndarray_pow P r 2) / Rs2)
                            (transm_rad out)]))
                   (det (orders su))
                   (engine_outputs (trace (run P args w).1))
    | inl _ =>
        ndet (orders su) = 0%nat /\ written_files (trace (run P args w).1) = []
    end /\
    length (written_files (trace (run P args w).1)) = ndet (orders su) /\
    NoDup (written_files (trace (run P args w).1)).*1.
Proof.
  destruct (run_inv P args w) as [s1 e E|s1 su tr r E L]; [discriminate|].
  intros ->. exists s1, su. split; [exact E|].
  destruct (setup_inv P _ _ _ _ E) as (T & sa & sb & _ & Eo & _).
  apply enumerate_det in Eo as (Ld & ND & _).
  destruct (setup_silent P _ _ _ _ E) as (_ & C1 & C2 & _).
  unfold written_files, engine_outputs in *. rewrite !omap_app, C1, C2. cbn [app].
  apply loop_log_success in L as (ds & F & L1 & _ & W & N).
  unfold written_files, engine_outputs in *.
  rewrite <- Ld in F. apply lookup_all in F as ->.
  rewrite length_seq in L1.
  split; [exact Ld|]. split; [exact L1|]. split.
  { destruct (pow_float_int P (Rs su) 2) as [e|Rs2]; [|exact W].
    destruct W as [W1 W2]. split; [|exact W2].
    apply (f_equal length) in W1. now rewrite length_seq in W1. }
  split.
  { apply (f_equal length) in N. rewrite !length_fmap in N. congruence. }
  rewrite N. apply (@NoDup_fmap_2 _ _ _ (rep_fin_of_inj _)), ND.
Qed.

End OrdersAndFiles.

(** A single-model run with neither [--wmin] nor [--wmax]: one order over
    1.2 to 2.5 microns, one engine call. *)
Lemma single_order_without_file_witness :
  let P := Sim.platform [] Sim.out None in
  let cl := Sim.command_line None None None ["H2O"] in
  exists s1 su,
    setup P (parse_args cl) (Build_State P 0%nat []) = (s1, inr su) /\
    ndet (orders su) = 1%nat /\
    det (orders su) = [1%Z] /\
    W_min (orders su) = PyFloat 1.2 /\
    W_max (orders su) = PyFloat 2.5 /\
    exists c,
      engine_calls (trace (run P (parse_args cl) 0%nat).1) = [c] /\
      wlen_bords_micron c = (PyFloat ((1 - 0.01) * 1.2), PyFloat ((1 + 0.01) * 2.5)).
Proof.
  intros P cl.
  destruct (setup P (parse_args cl) (Build_State P 0%nat [])) as [s1 [e|su]] eqn:E.
  - vm_compute in E. discriminate E.
  - exists s1, su. split; [reflexivity|].
    destruct (single_order_without_file P cl 0%nat s1 su eq_refl E)
      as (_ & _ & H1 & H2 & H3 & H4 & H5).
    repeat split; assumption.
Defined.

(** The directory of an order-by-order run for WASP-77Ab with H2O and CO. *)
Lemma output_directory_witness :
  let P := Sim.platform Sim.two_orders Sim.out None in
  let args := parse_args (Sim.command_line (Some "wlens.pic") None None ["H2O"; "CO"]) in
  exists s1 su,
    setup P args (Build_State P 0%nat []) = (s1, inr su) /\
    save_dir su = "pRT_models/WASP-77Ab_1xSolar_H2O_CO_R1M/order_by_order/".
Proof.
  intros P args.
  destruct (setup P args (Build_State P 0%nat [])) as [s1 [e|su]] eqn:E.
  - vm_compute in E. discriminate E.
  - exists s1, su. split; [reflexivity|].
    exact (output_directory P args _ s1 su E).
Defined.

(** A completed order-by-order run over two orders writes
    [template_det0.pic] and [template_det1.pic]. *)
Lemma one_file_per_order_witness :
  let P := Sim.platform Sim.two_orders Sim.out None in
  let args := parse_args (Sim.command_line (Some "wlens.pic") None None ["H2O"; "CO"]) in
  let tr := trace (run P args 0%nat).1 in
  (run P args 0%nat).2 = inr tt /\
  (written_files tr).*1
  = ["pRT_models/WASP-77Ab_1xSolar_H2O_CO_R1M/order_by_order/template_det0.pic";
     "pRT_models/WASP-77Ab_1xSolar_H2O_CO_R1M/order_by_order/template_det1.pic"] /\
  length (written_files tr) = 2%nat /\
  NoDup (written_files tr).*1.
Proof.
  intros P args tr.
  assert (R : (run P args 0%nat).2 = inr tt) by (vm_compute; reflexivity).
  split; [exact R|]. split; [vm_compute; reflexivity|].
  destruct (one_file_per_order P args 0%nat R) as (s1 & su & _ & _ & _ & _ & _ & N).
  split; [vm_compute; reflexivity|exact N].
Defined.

(** * Further properties of the script *)

(** The orders read from the unpickled list [A], given the first and last
    elements [W] of its entries. *)
Definition orders_of_file (A : list ndarray) (W : ndarray * ndarray) : Orders := {|
  order_by_order := true;
  ndet := length A;
  W_min := NdArray (map (fun x => x / 1e3) W.1);
  W_max := NdArray (map (fun x => x / 1e3) W.2);
  Wm := pynum_mean (NdArray (map (fun x => x / 1e3) W.1))
                   (NdArray (map (fun x => x / 1e3) W.2));
  det := map Z.of_nat (seq 0 (length A))
|}.

(** The orders when no wavelength file is given. *)
Definition orders_of_args (args : Namespace) : Orders := {|
  order_by_order := false;
  ndet := 1;
  W_min := PyFloat (arg_wmin args);
  W_max := PyFloat (arg_wmax args);
  Wm := pynum_mean (PyFloat (arg_wmin args)) (PyFloat (arg_wmax args));
  det := [1%Z]
|}.

(** The output directory for the orders [o]. *)
Definition save_dir_of (args : Namespace) (o : Orders) : string :=
  let save_dir :=
    "pRT_models/" +:+ arg_planet args +:+ "_" +:+ solar +:+ "Solar_"
    +:+ str_join "_" (arg_species args) +:+ "_R1M/" in
  if order_by_order o then save_dir +:+ "order_by_order/" else save_dir.

(** The line lists the script knows, in the order it appends them. *)
Definition known_line_species : list string :=
  ["CO_all_iso"; "H2O_main_iso"; "CO2_main_iso"; "CH4_main_iso";
   "HCN_main_iso"; "NH3_main_iso"; "H2_main_iso"].

Definition is_load (ev : event) : bool :=
  match ev with EvLoad _ _ => true | _ => false end.

(** What [ensure_dir d] logs and returns. *)
Inductive dir_log (d : string) : list event -> result unit -> Prop :=
| dir_exists : dir_log d [] (inr tt)
| dir_made r : dir_log d [EvMakedirs d r] r.

(** What order enumeration logs and returns. *)
Inductive enum_log (args : Namespace) : list event -> result Orders -> Prop :=
| enum_no_file :
    arg_wlens_file args = None ->
    enum_log args [] (inr (orders_of_args args))
| enum_load_raises f e :
    arg_wlens_file args = Some f ->
    enum_log args [EvLoad f (inl e)] (inl e)
| enum_window_raises f A e :
    arg_wlens_file args = Some f ->
    window_loop A (seq 0 (length A)) [] [] = inl e ->
    enum_log args [EvLoad f (inr A)] (inl e)
| enum_file f A W :
    arg_wlens_file args = Some f ->
    window_loop A (seq 0 (length A)) [] [] = inr W ->
    enum_log args [EvLoad f (inr A)] (inr (orders_of_file A W)).

(** What [setup] logs and returns. *)
Inductive setup_log (P : Platform) (args : Namespace)
    : list event -> result Setup -> Prop :=
| setup_dir_raises tr0 e :
    dir_log "pRT_models/" tr0 (inl e) ->
    setup_log P args tr0 (inl e)
| setup_temperature_raises tr0 e :
    dir_log "pRT_models/" tr0 (inr tt) ->
    temperature P (arg_Teff args) (arg_Tint args) (arg_Teq args) = inl e ->
    setup_log P args tr0 (inl e)
| setup_orders_raise tr0 T tr1 e :
    dir_log "pRT_models/" tr0 (inr tt) ->
    temperature P (arg_Teff args) (arg_Tint args) (arg_Teq args) = inr T ->
    enum_log args tr1 (inl e) ->
    setup_log P args (tr0 ++ tr1) (inl e)
| setup_save_dir_raises tr0 T tr1 o tr2 e :
    dir_log "pRT_models/" tr0 (inr tt) ->
    temperature P (arg_Teff args) (arg_Tint args) (arg_Teq args) = inr T ->
    enum_log args tr1 (inr o) ->
    dir_log (save_dir_of args o) tr2 (inl e) ->
    setup_log P args (tr0 ++ tr1 ++ tr2) (inl e)
| setup_returns tr0 T tr1 o tr2 :
    dir_log "pRT_models/" tr0 (inr tt) ->
    temperature P (arg_Teff args) (arg_Tint args) (arg_Teq args) = inr T ->
    enum_log args tr1 (inr o) ->
    dir_log (save_dir_of args o) tr2 (inr tt) ->
    setup_log P args (tr0 ++ tr1 ++ tr2)
      (inr {| globals := profile P args T;
              orders := o;
              Rs := arg_Rs args * nc_r_sun P;
              save_dir := save_dir_of args o |}).

Section SetupPaths.

Context (P : Platform).

Lemma ensure_dir_log (d : string) : logs P (ensure_dir P d) (dir_log d).
Proof. apply logs_ensure_dir; constructor. Qed.

Lemma enumerate_orders_log (args : Namespace) :
  logs P (enumerate_orders P args) (enum_log args).
Proof.
  unfold enumerate_orders. destruct (arg_wlens_file args) as [f|] eqn:F.
  - apply (logs_bind P _ _
             (fun tr r => tr = [EvLoad f r])); [now apply logs_external| |].
    + intros tr e ->. now constructor.
    + intros tr1 A ->. unfold bind, lift, ret. intros s s' r.
      destruct (window_loop A (seq 0 (length A)) [] []) as [e|W] eqn:EW;
        intros [= <- <-]; exists []; rewrite app_nil_r;
        (split; [reflexivity|]); now constructor.
  - apply logs_ret. now constructor.
Qed.

Lemma setup_shape (args : Namespace) : logs P (setup P args) (setup_log P args).
Proof.
  unfold setup.
  apply (logs_bind P _ _ (dir_log "pRT_models/")); [apply ensure_dir_log| |].
  { intros tr e D. now apply setup_dir_raises. }
  intros tr0 [] D0. cbv zeta.
  destruct (temperature P (arg_Teff args) (arg_Tint args) (arg_Teq args))
    as [e|T] eqn:ET.
  { intros s s' r [= <- <-]. exists []. rewrite !app_nil_r.
    split; [reflexivity|]. now apply setup_temperature_raises. }
  apply (logs_bind P _ _ (fun (tr : list event) (r : result profile_array) =>
                            tr = [] /\ r = inr T));
    [now apply logs_lift| |].
  { intros tr e [_ [=]]. }
  intros tr' T' [-> [= ->]].
  apply (logs_bind P _ _ (enum_log args)); [apply enumerate_orders_log| |].
  { intros tr e EL. rewrite app_nil_l. now apply (setup_orders_raise P args tr0 T). }
  intros tr1 o EL. cbv zeta. fold (save_dir_of args o).
  apply (logs_bind P _ _ (dir_log (save_dir_of args o))); [apply ensure_dir_log| |].
  { intros tr2 e D2. rewrite app_nil_l.
    now apply (setup_save_dir_raises P args tr0 T tr1 o). }
  intros tr2 [] D2. apply logs_ret. rewrite app_nil_l, app_nil_r.
  now apply (setup_returns P args tr0 T tr1 o).
Qed.

End SetupPaths.

(** ** Runs, path by path *)

Section RunPaths.

Context (P : Platform).

(** A run either stops in [setup] or goes through the main loop. *)
Lemma run_shape (args : Namespace) (w : World P) :
  (exists e,
     setup_log P args (trace (run P args w).1) (inl e) /\
     (run P args w).2 = inl e) \/
  (exists tr1 su tr2,
     setup_log P args tr1 (inr su) /\
     loop_log P (globals su) (orders su) (Rs su) (save_dir su)
              (seq 0 (ndet (orders su))) tr2 (run P args w).2 /\
     trace (run P args w).1 = tr1 ++ tr2).
Proof.
  destruct (run_inv P args w) as [s1 e E|s1 su tr r E L];
    destruct (setup_shape P args _ _ _ E) as (tr1 & T1 & SL); cbn [trace app] in T1.
  - left. exists e. now rewrite T1.
  - right. exists tr1, su, tr. now rewrite T1.
Qed.

Lemma dir_log_events (d : string) (tr : list event) (r : result unit) :
  dir_log d tr r -> Forall is_setup_event tr /\ filter is_load tr = [].
Proof. destruct 1; repeat constructor. Qed.

Lemma enum_log_events (args : Namespace) (tr : list event) (r : result Orders) :
  enum_log args tr r -> Forall is_setup_event tr.
Proof. destruct 1; repeat constructor. Qed.

Lemma setup_log_events (args : Namespace) (tr : list event) (r : result Setup) :
  setup_log P args tr r -> Forall is_setup_event tr.
Proof.
  destruct 1;
    repeat match goal with
           | H : dir_log _ _ _ |- _ => apply dir_log_events in H as [H _]
           | H : enum_log _ _ _ |- _ => apply enum_log_events in H
           end;
    rewrite ?Forall_app; auto.
Qed.

Lemma dir_log_elem (d : string) (tr : list event) (r : result unit) (ev : event) :
  dir_log d tr r -> ev ∈ tr -> ev = EvMakedirs d r.
Proof. destruct 1; [now intros ?%elem_of_nil|now intros ->%list_elem_of_singleton]. Qed.

Lemma enum_log_load (args : Namespace) (tr : list event) (r : result Orders)
    (f : string) (A : list ndarray) :
  enum_log args tr r -> EvLoad f (inr A) ∈ tr ->
  arg_wlens_file args = Some f /\
  match window_loop A (seq 0 (length A)) [] [] with
  | inl e => r = inl e
  | inr W => r = inr (orders_of_file A W)
  end.
Proof.
  destruct 1 as [F|f' e' F|f' A' e' F EW|f' A' W F EW].
  - now intros ?%elem_of_nil.
  - now intros [=]%list_elem_of_singleton.
  - intros [= -> ->]%list_elem_of_singleton. now rewrite EW.
  - intros [= -> ->]%list_elem_of_singleton. now rewrite EW.
Qed.

Lemma setup_log_load (args : Namespace) (tr : list event) (r : result Setup)
    (f : string) (A : list ndarray) :
  setup_log P args tr r -> EvLoad f (inr A) ∈ tr ->
  arg_wlens_file args = Some f /\
  match window_loop A (seq 0 (length A)) [] [] with
  | inl e => r = inl e
  | inr W => forall su, r = inr su -> orders su = orders_of_file A W
  end.
Proof.
  destruct 1 as [tr0 e D0|tr0 e D0 ET|tr0 T tr1 e D0 ET EL
                |tr0 T tr1 o tr2 e D0 ET EL D2|tr0 T tr1 o tr2 D0 ET EL D2];
    rewrite ?elem_of_app; intros Hin.
  1,2: now apply (dir_log_elem _ _ _ _ D0) in Hin.
  all: destruct Hin as [Hin|Hin];
         [now apply (dir_log_elem _ _ _ _ D0) in Hin|].
  2,3: destruct Hin as [Hin|Hin];
         [|now apply (dir_log_elem _ _ _ _ D2) in Hin].
  all: destruct (enum_log_load _ _ _ _ _ EL Hin) as [F H]; split; [exact F|].
  all: destruct (window_loop A (seq 0 (length A)) [] []) as [e0|W];
         first [now injection H as -> | discriminate H | idtac].
  - injection H as ->. now intros su [= <-].
Qed.

Lemma setup_log_loads (args : Namespace) (tr : list event) (r : result Setup) :
  setup_log P args tr r ->
  match arg_wlens_file args with
  | Some f => filter is_load tr = [] \/ exists rl, filter is_load tr = [EvLoad f rl]
  | None => filter is_load tr = []
  end.
Proof.
  destruct 1 as [tr0 e D0|tr0 e D0 ET|tr0 T tr1 e D0 ET EL
                |tr0 T tr1 o tr2 e D0 ET EL D2|tr0 T tr1 o tr2 D0 ET EL D2];
    repeat match goal with
           | H : dir_log _ _ _ |- _ => apply dir_log_events in H as [_ H]
           end;
    rewrite ?filter_app, ?D0, ?D2, ?app_nil_l, ?app_nil_r;
    try (destruct (arg_wlens_file args); now auto).
  all: destruct EL as [F|f e' F|f A e' F EW|f A W F EW]; rewrite F; cbn; eauto.
Qed.

Lemma loop_log_no_load (g : Globals) (o : Orders) (R : float) (dir : string)
    (idets : list nat) (tr : list event) (r : result unit) :
  loop_log P g o R dir idets tr r -> filter is_load tr = [].
Proof. induction 1; auto. Qed.

Lemma loop_log_counts (g : Globals) (o : Orders) (R : float) (dir : string)
    (idets : list nat) (tr : list event) (r : result unit) :
  loop_log P g o R dir idets tr r ->
  (length (written_files tr) <= length (engine_outputs tr))%nat /\
  (length (engine_outputs tr) <= length (engine_calls tr))%nat /\
  (length (engine_calls tr) <= S (length (written_files tr)))%nat /\
  (length (engine_calls tr) <= length idets)%nat.
Proof.
  induction 1 as [| | | | |idet idets d out file tr r D F L IH]; cbn; try lia.
  unfold written_files, engine_outputs, engine_calls in IH. lia.
Qed.

Lemma loop_log_names (g : Globals) (o : Orders) (R : float) (dir : string)
    (idets : list nat) (tr : list event) (r : result unit) :
  loop_log P g o R dir idets tr r ->
  (written_files tr).*1
  = omap (fun idet => rep_fin_of dir <$> det o !! idet)
         (take (length (written_files tr)) idets).
Proof.
  induction 1 as [| | | | |idet idets d out file tr r D F L IH]; try reflexivity.
  apply order_file_inr in F as (Rs2 & _ & ->).
  cbn. rewrite D. cbn. f_equal. exact IH.
Qed.



Lemma window_loop_exn (A : list ndarray) (idets : list nat) (a1 a2 : ndarray)
    (e : exn) :
  window_loop A idets a1 a2 = inl e -> e = IndexError.
Proof.
  revert a1 a2. induction idets as [|idet idets IH]; intros a1 a2; cbn [window_loop].
  - discriminate.
  - destruct (A !! idet) as [a|]; [|congruence].
    destruct (head a); [|congruence]. destruct (last a); [|congruence]. apply IH.
Qed.

Lemma window_loop_empty_entry (A : list ndarray) (W : ndarray * ndarray) :
  window_loop A (seq 0 (length A)) [] [] = inr W -> [] ∉ A.
Proof.
  destruct W as [W1 W2]. intros EW Hin.
  apply window_loop_spec in EW as (X1 & _ & _ & _ & F1 & _).
  apply list_elem_of_lookup in Hin as [i Hi].
  assert (S : seq 0 (length A) !! i = Some i).
  { apply lookup_seq_lt. eapply lookup_lt_Some, Hi. }
  destruct (Forall2_lookup_l _ _ _ _ _ F1 S) as (lo & _ & a & Ha & Hlo).
  rewrite Hi in Ha. injection Ha as <-. discriminate Hlo.
Qed.

End RunPaths.

(** ** The profile handed to the engine *)

(** In an order-by-order run over two orders, the first and the second
    engine call are the same call. *)
Lemma engine_calls_identical_witness :
  let P := Sim.platform Sim.two_orders Sim.out None in
  let args := parse_args (Sim.command_line (Some "wlens.pic") None None ["H2O"; "CO"]) in
  let tr := trace (run P args 0%nat).1 in
  exists c1 c2,
    engine_calls tr !! 0%nat = Some c1 /\
    engine_calls tr !! 1%nat = Some c2 /\
    c1 = c2.
Proof.
  intros P args tr.
  destruct (engine_calls tr !! 0%nat) as [c1|] eqn:E1;
    [|vm_compute in E1; discriminate E1].
  destruct (engine_calls tr !! 1%nat) as [c2|] eqn:E2;
    [|vm_compute in E2; discriminate E2].
  exists c1, c2. split; [reflexivity|]. split; [reflexivity|].
  apply (engine_calls_identical P args 0%nat c1 c2);
    eapply list_elem_of_lookup_2; eassumption.
Defined.

Lemma map_const_length {A B C} (v : C) (a : list A) (b : list B) :
  length a = length b -> map (fun _ => v) a = map (fun _ => v) b.
Proof.
  revert b. induction a as [|x a IH]; intros [|y b] L; try discriminate L;
    [reflexivity|].
  cbn. f_equal. apply IH. now injection L.
Qed.

(** X2. Every array of the profile handed to the engine lies on the pressure
    grid of [np.logspace(-10, 2, 100)]: the temperature array has the
    grid's length, the mean-molecular-weight array is [--mmw] at every
    point (as a float64 array, or as the complex128 array of the products
    [mmw * (1+0j)] when the temperature array is complex), and every
    abundance array is one constant at every point. *)
Theorem profile_on_pressure_grid (P : Platform) (args : Namespace) (w : World P) :
  Forall (fun c =>
      rc_pressures c = pressures P /\
      profile_length (rc_temperature c) = length (pressures P) /\
      rc_MMW c
      = match rc_temperature c with
        | Float64 _ => Float64 (map (fun _ => arg_mmw args) (pressures P))
        | Complex128 _ =>
            Complex128 (map (fun _ => complex_mul (arg_mmw args, 0) (1, 0))
                            (pressures P))
        end /\
      (forall (k : string) (a : ndarray),
         rc_abundances c !! k = Some a ->
         exists x, a = map (fun _ => x) (pressures P)) /\
      rc_gravity c = arg_grav args /\
      R_pl c = arg_Rp args * nc_r_jup_mean P /\
      P0_bar c = 0.01)
    (engine_calls (trace (run P args w).1)).
Proof.
  eapply Forall_impl; [apply run_engine_calls|].
  intros c (s1 & su & E & ->).
  apply setup_inv in E as (T & _ & _ & ET & _ & -> & _).
  cbn [order_call radtrans_call rc_pressures rc_temperature rc_MMW rc_abundances
       rc_gravity R_pl P0_bar profile g_pressures g_temperature g_MMW
       g_abundances g_gravity g_Rp g_P0].
  assert (LT : profile_length T = length (pressures P)).
  { unfold temperature, scalar_temperature in ET.
    destruct (arg_Teff args), (arg_Tint args); try discriminate ET;
      repeat match type of ET with
             | match ?x with _ => _ end = _ => destruct x; try discriminate ET
             end;
      injection ET as <-;
      try match goal with |- context [py_mul_array ?p _] => destruct p end;
      cbn [py_mul py_mul_array profile_length]; unfold scale, ones_like;
      now rewrite !length_map. }
  split; [reflexivity|]. split; [exact LT|]. split.
  { destruct T as [a|a]; cbn [times_ones_like profile_length] in *.
    - rewrite scale_ones_like. f_equal. now apply map_const_length.
    - rewrite map_map. f_equal. now apply map_const_length. }
  split; [|now repeat split].
  intros k a. unfold abundances. cbv zeta. intros H.
  repeat (apply lookup_insert_Some in H as [[_ <-]|[_ H]];
          [eexists; apply scale_ones_like|]).
  now rewrite lookup_empty in H.
Qed.

(** ** Early failures *)

(** X3. With [--Teff] but without [--Tint] the script stops before it
    unpickles the wavelength file, calls the engine or writes a file: the
    run ends with TypeError, or with the exception of creating
    [pRT_models/] if that came first. *)
Theorem teff_without_tint (P : Platform) (args : Namespace) (w : World P)
    (Teff : Z) :
  arg_Teff args = Some Teff ->
  arg_Tint args = None ->
  filter is_load (trace (run P args w).1) = [] /\
  engine_calls (trace (run P args w).1) = [] /\
  written_files (trace (run P args w).1) = [] /\
  ((run P args w).2 = inl TypeError \/
   exists e, trace (run P args w).1 = [EvMakedirs "pRT_models/" (inl e)] /\
             (run P args w).2 = inl e).
Proof.
  intros HTeff HTint.
  assert (ET : temperature P (arg_Teff args) (arg_Tint args) (arg_Teq args)
               = inl TypeError) by now rewrite HTeff, HTint.
  destruct (run_shape P args w) as [(e & SL & R)|(tr1 & su & tr2 & SL & _)];
    inversion SL as [tr0 e0 D0|tr0 e0 D0 ET'| | |]; subst; try congruence.
  - inversion D0; subst. rewrite R. repeat split; eauto.
  - rewrite ET in ET'. injection ET' as <-. rewrite R.
    inversion D0; subst; repeat split; auto.
Qed.

(** A run with [--Teff 5000] alone ends with TypeError. *)
Lemma teff_without_tint_witness :
  let P := Sim.platform Sim.two_orders Sim.out None in
  let args := parse_args (Sim.command_line (Some "wlens.pic") (Some 5000%Z) None ["H2O"]) in
  (run P args 0%nat).2 = inl TypeError /\
  filter is_load (trace (run P args 0%nat).1) = [] /\
  engine_calls (trace (run P args 0%nat).1) = [] /\
  written_files (trace (run P args 0%nat).1) = [].
Proof.
  intros P args.
  destruct (teff_without_tint P args 0%nat 5000 eq_refl eq_refl) as (H1 & H2 & H3 & _).
  split; [vm_compute; reflexivity|]. now repeat split.
Defined.

(** X4. A wavelength file with an empty order stops the run with IndexError
    right after it is unpickled: the engine is not called and nothing is
    written. *)
Theorem empty_order_raises (P : Platform) (args : Namespace) (w : World P)
    (f : string) (A : list ndarray) :
  EvLoad f (inr A) ∈ trace (run P args w).1 ->
  [] ∈ A ->
  (run P args w).2 = inl IndexError /\
  engine_calls (trace (run P args w).1) = [] /\
  written_files (trace (run P args w).1) = [].
Proof.
  intros Hin HA.
  destruct (run_shape P args w) as [(e & SL & R)|(tr1 & su & tr2 & SL & L & T)].
  - destruct (setup_log_load P _ _ _ _ _ SL Hin) as [_ H].
    destruct (window_loop A (seq 0 (length A)) [] []) as [e0|W] eqn:EW.
    + apply window_loop_exn in EW as ->. injection H as ->.
      split; [exact R|].
      now destruct (setup_events_silent _ (setup_log_events P _ _ _ SL)) as (-> & _ & -> & _).
    + now apply window_loop_empty_entry in EW.
  - exfalso. rewrite T in Hin. apply elem_of_app in Hin as [Hin|Hin].
    + destruct (setup_log_load P _ _ _ _ _ SL Hin) as [_ H].
      destruct (window_loop A (seq 0 (length A)) [] []) as [e0|W] eqn:EW;
        [discriminate H|now apply window_loop_empty_entry in EW].
    + apply loop_log_no_load in L.
      assert (EvLoad f (inr A) ∈ filter is_load tr2) by now apply list_elem_of_filter.
      rewrite L in H. now apply elem_of_nil in H.
Qed.

(** A wavelength file whose second order is empty. *)
Lemma empty_order_raises_witness :
  let A := [[1000; 1100]; []] in
  let P := Sim.platform A Sim.out None in
  let args := parse_args (Sim.command_line (Some "wlens.pic") None None ["H2O"]) in
  EvLoad "wlens.pic" (inr A) ∈ trace (run P args 0%nat).1 /\
  (run P args 0%nat).2 = inl IndexError /\
  engine_calls (trace (run P args 0%nat).1) = [] /\
  written_files (trace (run P args 0%nat).1) = [].
Proof.
  intros A P args.
  assert (Hin : EvLoad "wlens.pic" (inr A) ∈ trace (run P args 0%nat).1).
  { apply (list_elem_of_lookup_2 _ 1%nat). vm_compute. reflexivity. }
  split; [exact Hin|].
  apply (empty_order_raises P args 0%nat "wlens.pic" A Hin).
  apply (list_elem_of_lookup_2 _ 1%nat). reflexivity.
Defined.

(** ** Runs that complete *)



(** ** Orders, engine calls and files *)

Lemma window_loop_lookup (A : list ndarray) (W1 W2 : ndarray) :
  window_loop A (seq 0 (length A)) [] [] = inr (W1, W2) ->
  length W1 = length A /\ length W2 = length A /\
  forall (i : nat) (a : ndarray), A !! i = Some a ->
    exists lo hi,
      head a = Some lo /\ last a = Some hi /\
      W1 !! i = Some lo /\ W2 !! i = Some hi.
Proof.
  intros EW.
  destruct (window_loop_spec _ _ _ _ _ _ EW) as (X1 & X2 & -> & -> & F1 & F2).
  cbn [app].
  pose proof (Forall2_length _ _ _ F1) as L1.
  pose proof (Forall2_length _ _ _ F2) as L2.
  rewrite length_seq in L1, L2. repeat split; try congruence.
  intros i a La.
  assert (Hi : seq 0 (length A) !! i = Some i).
  { apply lookup_seq_lt. eapply lookup_lt_Some, La. }
  destruct (Forall2_lookup_l _ _ _ _ _ F1 Hi) as (lo & Hlo & a1 & La1 & H1).
  destruct (Forall2_lookup_l _ _ _ _ _ F2 Hi) as (hi & Hhi & a2 & La2 & H2).
  exists lo, hi. replace a with a1 by congruence. split; [assumption|].
  replace a1 with a2 by congruence. now repeat split.
Qed.

Lemma omap_fmap_ext {A B} (f : A -> option B) (g : A -> B) (l : list A) :
  (forall x, x ∈ l -> f x = Some (g x)) -> omap f l = g <$> l.
Proof.
  induction l as [|x l IH]; intros H; [reflexivity|].
  cbn. rewrite (H x) by constructor. cbn. f_equal. apply IH.
  intros y Hy. apply H. now constructor.
Qed.

Lemma save_dir_of_eq (args : Namespace) (o : Orders) :
  save_dir_of args o
  = "pRT_models/" +:+ arg_planet args +:+ "_1xSolar_"
    +:+ str_join "_" (arg_species args) +:+ "_R1M/"
    +:+ (if order_by_order o then "order_by_order/" else "").
Proof.
  unfold save_dir_of. cbv zeta. destruct (order_by_order o).
  - now rewrite !string_app_assoc.
  - now rewrite string_app_nil_r.
Qed.

(** X6. In an order-by-order run every engine call is over the window whose
    bounds are arrays with one entry per order of the wavelength file:
    entry [i] of the lower bound is [(1-0.01) * A[i][0]/1000] and entry
    [i] of the upper bound is [(1+0.01) * A[i][-1]/1000]. *)
Theorem file_mode_window (P : Platform) (args : Namespace) (w : World P)
    (f : string) (A : list ndarray) (c : RadtransCall) :
  EvLoad f (inr A) ∈ trace (run P args w).1 ->
  c ∈ engine_calls (trace (run P args w).1) ->
  exists Wmin Wmax,
    wlen_bords_micron c = (NdArray Wmin, NdArray Wmax) /\
    length Wmin = length A /\ length Wmax = length A /\
    forall (i : nat) (a : ndarray), A !! i = Some a ->
      exists lo hi,
        head a = Some lo /\ last a = Some hi /\
        Wmin !! i = Some ((1 - 0.01) * (lo / 1000)) /\
        Wmax !! i = Some ((1 + 0.01) * (hi / 1000)).
Proof.
  intros Hin Hc.
  destruct (run_shape P args w) as [(e & SL & R)|(tr1 & su & tr2 & SL & L & T)].
  { destruct (setup_events_silent _ (setup_log_events P _ _ _ SL)) as (C & _).
    rewrite C in Hc. now apply elem_of_nil in Hc. }
  rewrite T in Hin, Hc.
  assert (Hin1 : EvLoad f (inr A) ∈ tr1).
  { apply elem_of_app in Hin as [Hin|Hin]; [exact Hin|exfalso].
    pose proof (loop_log_no_load P _ _ _ _ _ _ _ L) as NL.
    assert (H : EvLoad f (inr A) ∈ filter is_load tr2) by now apply list_elem_of_filter.
    rewrite NL in H. now apply elem_of_nil in H. }
  destruct (setup_log_load P _ _ _ _ _ SL Hin1) as [_ H].
  destruct (window_loop A (seq 0 (length A)) [] []) as [e0|[W1 W2]] eqn:EW;
    [discriminate H|]. specialize (H su eq_refl).
  unfold engine_calls in Hc. rewrite omap_app in Hc.
  destruct (setup_events_silent _ (setup_log_events P _ _ _ SL)) as (C & _).
  unfold engine_calls in C. rewrite C in Hc. cbn [app] in Hc.
  apply loop_log_calls in L as [L _]. rewrite Forall_forall in L.
  rewrite (L c Hc), H.
  destruct (window_loop_lookup _ _ _ EW) as (L1 & L2 & HW).
  exists (map (fun x => (1 - 0.01) * x) (map (fun x => x / 1e3) W1)),
         (map (fun x => (1 + 0.01) * x) (map (fun x => x / 1e3) W2)).
  split.
  { cbn [order_call radtrans_call wlen_bords_micron orders_of_file W_min W_max
         pynum_lmul fst snd]. rewrite pynum_rmul_lmul. reflexivity. }
  rewrite !length_map. repeat split; try assumption.
  intros i a La. destruct (HW i a La) as (lo & hi & Hlo & Hhi & H1 & H2).
  exists lo, hi. rewrite !list_lookup_fmap, H1, H2. now repeat split.
Qed.

(** The two orders of [Sim.two_orders]: both engine calls get the bounds
    of both orders. *)
Lemma file_mode_window_witness :
  let P := Sim.platform Sim.two_orders Sim.out None in
  let args := parse_args (Sim.command_line (Some "wlens.pic") None None ["H2O"]) in
  let tr := trace (run P args 0%nat).1 in
  exists c Wmin Wmax,
    engine_calls tr !! 1%nat = Some c /\
    wlen_bords_micron c = (NdArray Wmin, NdArray Wmax) /\
    length Wmin = 2%nat /\ length Wmax = 2%nat.
Proof.
  intros P args tr.
  destruct (engine_calls tr !! 1%nat) as [c|] eqn:E;
    [|vm_compute in E; discriminate E].
  assert (Hin : EvLoad "wlens.pic" (inr Sim.two_orders) ∈ tr).
  { apply (list_elem_of_lookup_2 _ 1%nat). vm_compute. reflexivity. }
  destruct (file_mode_window P args 0%nat "wlens.pic" Sim.two_orders c Hin)
    as (Wmin & Wmax & H & L1 & L2 & _).
  { eapply list_elem_of_lookup_2. exact E. }
  exists c, Wmin, Wmax. now repeat split.
Defined.

(** X7. The engine is called at most once per order of the wavelength file;
    in particular a file without orders leads to no engine call. *)
Theorem engine_calls_at_most_orders (P : Platform) (args : Namespace)
    (w : World P) (f : string) (A : list ndarray) :
  EvLoad f (inr A) ∈ trace (run P args w).1 ->
  (length (engine_calls (trace (run P args w).1)) <= length A)%nat /\
  (length (written_files (trace (run P args w).1)) <= length A)%nat.
Proof.
  intros Hin.
  destruct (run_shape P args w) as [(e & SL & R)|(tr1 & su & tr2 & SL & L & T)].
  { destruct (setup_events_silent _ (setup_log_events P _ _ _ SL)) as (-> & _ & -> & _).
    cbn. lia. }
  rewrite T in *.
  assert (Hin1 : EvLoad f (inr A) ∈ tr1).
  { apply elem_of_app in Hin as [Hin|Hin]; [exact Hin|exfalso].
    pose proof (loop_log_no_load P _ _ _ _ _ _ _ L) as NL.
    assert (H : EvLoad f (inr A) ∈ filter is_load tr2) by now apply list_elem_of_filter.
    rewrite NL in H. now apply elem_of_nil in H. }
  destruct (setup_log_load P _ _ _ _ _ SL Hin1) as [_ H].
  destruct (window_loop A (seq 0 (length A)) [] []) as [e0|W] eqn:EW;
    [discriminate H|]. specialize (H su eq_refl).
  unfold engine_calls, written_files. rewrite !omap_app.
  destruct (setup_events_silent _ (setup_log_events P _ _ _ SL)) as (C1 & _ & C2 & _).
  unfold engine_calls, written_files in C1, C2. rewrite C1, C2. cbn [app].
  apply loop_log_counts in L as (L1 & L2 & _ & L4).
  rewrite H, length_seq in L4. cbn [ndet orders_of_file] in L4.
  unfold engine_calls, engine_outputs, written_files in *. lia.
Qed.

(** A wavelength file that unpickles to the empty list: the run completes
    without calling the engine or writing a file. *)
Lemma engine_calls_at_most_orders_witness :
  let P := Sim.platform [] Sim.out None in
  let args := parse_args (Sim.command_line (Some "wlens.pic") None None ["H2O"]) in
  let tr := trace (run P args 0%nat).1 in
  EvLoad "wlens.pic" (inr []) ∈ tr /\
  (run P args 0%nat).2 = inr tt /\
  (length (engine_calls tr) <= 0)%nat /\
  (length (written_files tr) <= 0)%nat.
Proof.
  intros P args tr.
  assert (Hin : EvLoad "wlens.pic" (inr []) ∈ tr).
  { apply (list_elem_of_lookup_2 _ 1%nat). vm_compute. reflexivity. }
  split; [exact Hin|]. split; [vm_compute; reflexivity|].
  exact (engine_calls_at_most_orders P args 0%nat "wlens.pic" [] Hin).
Defined.

(** X8. In every run, completed or not, each written file follows an engine
    call that returned, and the engine is called at most once more than
    files were written: an order is started only when the file of the
    order before it is on disk. *)
Theorem one_engine_call_ahead (P : Platform) (args : Namespace) (w : World P) :
  (length (written_files (trace (run P args w).1))
   <= length (engine_outputs (trace (run P args w).1)))%nat /\
  (length (engine_outputs (trace (run P args w).1))
   <= length (engine_calls (trace (run P args w).1)))%nat /\
  (length (engine_calls (trace (run P args w).1))
   <= S (length (written_files (trace (run P args w).1))))%nat.
Proof.
  destruct (run_shape P args w) as [(e & SL & R)|(tr1 & su & tr2 & SL & L & T)].
  - destruct (setup_events_silent _ (setup_log_events P _ _ _ SL)) as (-> & -> & -> & _).
    cbn. lia.
  - rewrite T. unfold engine_calls, engine_outputs, written_files.
    rewrite !omap_app.
    destruct (setup_events_silent _ (setup_log_events P _ _ _ SL)) as (C1 & C2 & C3 & _).
    unfold engine_calls, engine_outputs, written_files in C1, C2, C3.
    rewrite C1, C2, C3. cbn [app].
    apply loop_log_counts in L as (L1 & L2 & L3 & _).
    unfold engine_calls, engine_outputs, written_files in *. lia.
Qed.

(** X9. The names of the files a run has written, completed or not. With a
    wavelength file they are numbered from zero by position in the file:
    [template_det0.pic], [template_det1.pic], ... in the directory
    [.../order_by_order/]; without one the only file is
    [template_det1.pic]. *)
Theorem output_file_names (P : Platform) (args : Namespace) (w : World P) :
  let dir := "pRT_models/" +:+ arg_planet args +:+ "_1xSolar_"
             +:+ str_join "_" (arg_species args) +:+ "_R1M/" in
  (written_files (trace (run P args w).1)).*1
  = match arg_wlens_file args with
    | Some _ =>
        (fun i => (dir +:+ "order_by_order/") +:+ "template_det"
                  +:+ pretty (Z.of_nat i) +:+ ".pic")
          <$> seq 0 (length (written_files (trace (run P args w).1)))
    | None =>
        take (length (written_files (trace (run P args w).1)))
             [dir +:+ "template_det1.pic"]
    end.
Proof.
  intros dir.
  destruct (run_shape P args w) as [(e & SL & R)|(tr1 & su & tr2 & SL & L & T)].
  { destruct (setup_events_silent _ (setup_log_events P _ _ _ SL)) as (_ & _ & -> & _).
    now destruct (arg_wlens_file args). }
  rewrite T. unfold written_files. rewrite omap_app.
  destruct (setup_events_silent _ (setup_log_events P _ _ _ SL)) as (_ & _ & C & _).
  unfold written_files in C. rewrite C. cbn [app].
  fold (written_files tr2).
  pose proof (loop_log_counts P _ _ _ _ _ _ _ L) as (L1 & L2 & _ & L4).
  rewrite (loop_log_names P _ _ _ _ _ _ _ L).
  set (k := length (written_files tr2)) in *.
  inversion SL as [| | | |tr0 T' tr1' o tr2' D0 ET EL D2]; subst.
  cbn [orders save_dir] in *.
  inversion EL as [F| | |f A W F EW]; subst; rewrite F.
  - cbn [orders_of_args ndet det seq]. unfold save_dir_of. cbn [order_by_order]. cbv zeta.
    destruct k as [|k]; [reflexivity|].
    cbn [take omap lookup list_lookup fmap option_fmap option_map].
    rewrite !take_nil. reflexivity.
  - cbn [orders_of_file ndet det] in *. rewrite length_seq in L4.
    rewrite take_seq. replace (k `min` length A)%nat with k by lia.
    unfold save_dir_of. cbn [order_by_order]. cbv zeta. fold dir.
    apply omap_fmap_ext. intros i Hi%elem_of_seq.
    rewrite list_lookup_fmap, lookup_seq_lt by lia. reflexivity.
Qed.

(** X10. The wavelength file is the only file a run unpickles, and it does so
    at most once; without [--wlens-file] nothing is unpickled. *)
Theorem unpickles_only_wavelength_file (P : Platform) (args : Namespace)
    (w : World P) :
  match arg_wlens_file args with
  | Some f =>
      filter is_load (trace (run P args w).1) = [] \/
      exists rl, filter is_load (trace (run P args w).1) = [EvLoad f rl]
  | None => filter is_load (trace (run P args w).1) = []
  end.
Proof.
  destruct (run_shape P args w) as [(e & SL & R)|(tr1 & su & tr2 & SL & L & T)].
  - exact (setup_log_loads P _ _ _ SL).
  - rewrite T, filter_app, (loop_log_no_load P _ _ _ _ _ _ _ L), app_nil_r.
    exact (setup_log_loads P _ _ _ SL).
Qed.

(** ** The line list *)

(** X11. Whatever [--species] holds, in whatever order and however often, the
    line list is a sub-list of the seven known line lists in the script's
    own order: names the script does not know are dropped, repeated names
    count once, and the list depends only on which names occur. *)
Theorem line_list_canonical (species : list string) :
  LS species `sublist_of` known_line_species /\
  forall species' : list string,
    (forall x, x ∈ species <-> x ∈ species') -> LS species' = LS species.
Proof.
  split.
  - unfold LS, known_line_species. cbv zeta.
    repeat case_decide; cbn [app];
      repeat lazymatch goal with
             | |- [] `sublist_of` _ => apply sublist_nil_l
             | |- (?x :: _) `sublist_of` (?x :: _) => apply sublist_skip
             | |- _ `sublist_of` (_ :: _) => apply sublist_cons
             end.
  - intros species' H. unfold LS. cbv zeta.
    repeat match goal with
           | |- context [decide (?x ∈ species')] =>
               rewrite (decide_ext (x ∈ species') (x ∈ species)) by (symmetry; apply H)
           end.
    reflexivity.
Qed.

(** ** The temperature radicand *)

(** X12. For non-negative [--Tint] and [--Teq] the integer the script raises to
    the power 0.25 is non-negative and at most [Tint + Teq + 8]: the
    expression [Tint^4+Teq^4] grows linearly, not with the fourth power.
    It vanishes exactly when [Tint] equals [(4 + Teq) XOR 4]. *)
Theorem radicand_bounds (Tint Teq : Z) :
  ((0 <= Tint)%Z -> (0 <= Teq)%Z ->
   (0 <= radicand Tint Teq <= Tint + Teq + 8)%Z) /\
  (radicand Tint Teq = 0%Z <-> Tint = Z.lxor (4 + Teq) 4).
Proof.
  unfold radicand. split.
  - intros HT HE.
    assert (H1 : (0 <= Z.lxor Tint (4 + Teq))%Z) by (apply Z.lxor_nonneg; lia).
    assert (H2 : (0 <= Z.lxor (Z.lxor Tint (4 + Teq)) 4)%Z) by (apply Z.lxor_nonneg; lia).
    pose proof (Z.add_lxor_2land Tint (4 + Teq)) as E1.
    pose proof (Z.add_lxor_2land (Z.lxor Tint (4 + Teq)) 4) as E2.
    assert (0 <= Z.land Tint (4 + Teq))%Z by (apply Z.land_nonneg; lia).
    assert (0 <= Z.land (Z.lxor Tint (4 + Teq)) 4)%Z by (apply Z.land_nonneg; lia).
    lia.
  - rewrite Z.lxor_assoc, Z.lxor_eq_0_iff. reflexivity.
Qed.

(** ** The order of the external calls *)

Lemma loop_log_events (P : Platform) (g : Globals) (o : Orders) (R : float)
    (dir : string) (idets : list nat) (tr : list event) (r : result unit) :
  loop_log P g o R dir idets tr r ->
  Forall (fun ev => ~ is_setup_event ev) tr.
Proof. induction 1; repeat constructor; auto. Qed.

(** X13. The directories are created and the wavelength file is unpickled
    before the engine is called for the first time and before any file is
    written: in the log of a run every [os.makedirs] and [pickle.load]
    comes before every engine call and every [pickle.dump]. *)
Theorem setup_before_engine (P : Platform) (args : Namespace) (w : World P)
    (i j : nat) (ev1 ev2 : event) :
  trace (run P args w).1 !! i = Some ev1 ->
  trace (run P args w).1 !! j = Some ev2 ->
  is_setup_event ev1 ->
  ~ is_setup_event ev2 ->
  (i < j)%nat.
Proof.
  intros Hi Hj H1 H2.
  destruct (run_shape P args w) as [(e & SL & R)|(tr1 & su & tr2 & SL & L & T)].
  - apply setup_log_events in SL. rewrite Forall_forall in SL.
    exfalso. apply H2, SL. eapply list_elem_of_lookup_2, Hj.
  - apply setup_log_events in SL. apply loop_log_events in L.
    rewrite Forall_forall in SL, L. rewrite T in Hi, Hj.
    destruct (decide (j < length tr1)%nat) as [Lj|Lj].
    { rewrite lookup_app_l in Hj by assumption.
      exfalso. apply H2, SL. eapply list_elem_of_lookup_2, Hj. }
    destruct (decide (i < length tr1)%nat) as [Li|Li]; [lia|].
    rewrite lookup_app_r in Hi by lia.
    exfalso. eapply L; [|exact H1]. eapply list_elem_of_lookup_2, Hi.
Qed.

(** In a single-model run the output directory is created (entry 1 of the
    log) before the engine is called (entry 2). *)
Lemma setup_before_engine_witness :
  let P := Sim.platform [] Sim.out None in
  let args := parse_args (Sim.command_line None None None ["H2O"]) in
  exists ev1 ev2,
    trace (run P args 0%nat).1 !! 1%nat = Some ev1 /\
    trace (run P args 0%nat).1 !! 2%nat = Some ev2 /\
    is_setup_event ev1 /\ ~ is_setup_event ev2 /\ (1 < 2)%nat.
Proof.
  intros P args.
  destruct (trace (run P args 0%nat).1 !! 1%nat) as [ev1|] eqn:E1;
    [|vm_compute in E1; discriminate E1].
  destruct (trace (run P args 0%nat).1 !! 2%nat) as [ev2|] eqn:E2;
    [|vm_compute in E2; discriminate E2].
  assert (H1 : is_setup_event ev1).
  { vm_compute in E1. injection E1 as <-. exact I. }
  assert (H2 : ~ is_setup_event ev2).
  { vm_compute in E2. injection E2 as <-. intros []. }
  exists ev1, ev2. repeat split; try assumption.
  exact (setup_before_engine P args 0%nat 1 2 ev1 ev2 E1 E2 H1 H2).
Defined.

(** ** Existing output directories *)

Definition is_makedirs (ev : event) : bool :=
  match ev with EvMakedirs _ _ => true | _ => false end.

(** The platform [Q] on a file system that holds the directories [ds] and
    nothing else. *)
Definition with_directories (ds : list string) (Q : Platform) : Platform := {|
  World := World Q;
  nc_c := nc_c Q;
  nc_r_sun := nc_r_sun Q;
  nc_r_jup_mean := nc_r_jup_mean Q;
  pow_int_float := pow_int_float Q;
  pow_float_int := pow_float_int Q;
  ndarray_pow := ndarray_pow Q;
  logspace_m10_2_100 := logspace_m10_2_100 Q;
  path_exists := fun _ d => bool_decide (d ∈ ds);
  makedirs := makedirs Q;
  pickle_load := pickle_load Q;
  pickle_dump := pickle_dump Q;
  radtrans := radtrans Q
|}.

Lemma ensure_dir_existing (P : Platform) (d : string) (s : State P) :
  path_exists P (world s) d = true -> ensure_dir P d s = (s, inr tt).
Proof. intros E. unfold ensure_dir. now rewrite E. Qed.

Lemma enumerate_orders_world (P : Platform) (args : Namespace)
    (s s1 : State P) (r : result Orders) :
  enumerate_orders P args s = (s1, r) ->
  filter is_makedirs (trace s1) = filter is_makedirs (trace s) /\
  forall o, r = inr o ->
    world s1 = match arg_wlens_file args with
               | Some rep_wave => (pickle_load P (world s) rep_wave).1
               | None => world s
               end /\
    order_by_order o = match arg_wlens_file args with
                       | Some _ => true
                       | None => false
                       end.
Proof.
  unfold enumerate_orders. destruct (arg_wlens_file args) as [f|].
  - unfold bind at 1, external at 1.
    destruct (pickle_load P (world s) f) as [w1 [e|A]].
    + intros [= <- <-]. cbn [trace]. split; [|discriminate].
      rewrite filter_app. cbn. apply app_nil_r.
    + unfold bind at 1, lift at 1.
      destruct (window_loop A (seq 0 (length A)) [] []) as [e|W].
      * intros [= <- <-]. cbn [trace]. split; [|discriminate].
        rewrite filter_app. cbn. apply app_nil_r.
      * intros [= <- <-]. cbn [trace world]. split.
        -- rewrite filter_app. cbn. apply app_nil_r.
        -- intros o [= <-]. split; reflexivity.
  - intros [= <- <-]. split; [reflexivity|]. intros o [= <-]. split; reflexivity.
Qed.

Lemma setup_no_makedirs (P : Platform) (args : Namespace) (w : World P)
    (s1 : State P) (r : result Setup) :
  path_exists P w "pRT_models/" = true ->
  path_exists P
    match arg_wlens_file args with
    | Some rep_wave => (pickle_load P w rep_wave).1
    | None => w
    end
    ("pRT_models/" +:+ arg_planet args +:+ "_1xSolar_"
     +:+ str_join "_" (arg_species args) +:+ "_R1M/"
     +:+ match arg_wlens_file args with
         | Some _ => "order_by_order/"
         | None => ""
         end) = true ->
  setup P args {| world := w; trace := [] |} = (s1, r) ->
  filter is_makedirs (trace s1) = [].
Proof.
  intros H1 H2. unfold setup. cbv zeta.
  unfold bind at 1. rewrite ensure_dir_existing by exact H1.
  unfold bind at 1, lift at 1.
  destruct (temperature P (arg_Teff args) (arg_Tint args) (arg_Teq args))
    as [e|T]; [now intros [= <- <-]|].
  unfold bind at 1.
  destruct (enumerate_orders P args _) as [s2 [e|o]] eqn:Eo;
    apply enumerate_orders_world in Eo as [F Ho]; cbn [trace world] in F, Ho.
  { now intros [= <- <-]. }
  destruct (Ho o eq_refl) as [Ew Eb].
  fold (save_dir_of args o). rewrite save_dir_of_eq, Eb.
  unfold bind at 1. rewrite ensure_dir_existing.
  - now intros [= <- <-].
  - rewrite Ew. destruct (arg_wlens_file args); exact H2.
Qed.

(** X14. When [pRT_models/] exists as the run starts and the output
    directory exists when the script asks for it, that is once the
    wavelength file, if one was given, has been unpickled, the run never
    calls [os.makedirs]. *)
Theorem no_makedirs_on_existing_tree (P : Platform) (args : Namespace)
    (w : World P) :
  path_exists P w "pRT_models/" = true ->
  path_exists P
    match arg_wlens_file args with
    | Some rep_wave => (pickle_load P w rep_wave).1
    | None => w
    end
    ("pRT_models/" +:+ arg_planet args +:+ "_1xSolar_"
     +:+ str_join "_" (arg_species args) +:+ "_R1M/"
     +:+ match arg_wlens_file args with
         | Some _ => "order_by_order/"
         | None => ""
         end) = true ->
  filter is_makedirs (trace (run P args w).1) = [].
Proof.
  intros H1 H2.
  destruct (run_inv P args w) as [s1 e E|s1 su tr r E L].
  - exact (setup_no_makedirs P args w s1 _ H1 H2 E).
  - rewrite filter_app, (setup_no_makedirs P args w s1 _ H1 H2 E), app_nil_l.
    apply loop_log_events in L.
    induction L as [|ev tr Hev _ IH]; [reflexivity|].
    destruct ev; cbn in Hev |- *; try exact IH. now destruct Hev.
Qed.

(** A single-model run on a file system that holds the two directories
    and nothing else: the engine is called, the file is written, and no
    directory is created. *)
Lemma no_makedirs_on_existing_tree_witness :
  let P := with_directories ["pRT_models/"; "pRT_models/WASP-77Ab_1xSolar_H2O_R1M/"]
             (Sim.platform [] Sim.out None) in
  let args := parse_args (Sim.command_line None None None ["H2O"]) in
  path_exists P 0%nat "pRT_models/" = true /\
  path_exists P 0%nat "pRT_models/WASP-77Ab_1xSolar_H2O_R1M/" = true /\
  path_exists P 0%nat "pRT_models/WASP-77Ab_1xSolar_H2O_R1M/order_by_order/" = false /\
  (run P args 0%nat).2 = inr tt /\
  length (written_files (trace (run P args 0%nat).1)) = 1%nat /\
  filter is_makedirs (trace (run P args 0%nat).1) = [].
Proof.
  intros P args.
  split; [vm_compute; reflexivity|]. split; [vm_compute; reflexivity|].
  split; [vm_compute; reflexivity|]. split; [vm_compute; reflexivity|].
  split; [vm_compute; reflexivity|].
  apply (no_makedirs_on_existing_tree P args 0%nat); vm_compute; reflexivity.
Defined.
